(** * convert-images.js: batch conversion of a fixed table of PNG sources
      into resized WebP derivatives.

    The script is modelled as a shallow embedding: the filesystem is a
    finite map from resolved paths to nodes, the console and the calls
    made to the external image codec are traces, and the script's
    functions live in a small state-and-exception monad.  The codec
    ([sharp]) is external to the repository and is a parameter. *)

From Stdlib Require Import Ascii String QArith.
From stdpp Require Import gmap strings list fin_maps.

Local Open Scope Z_scope.

(** ** Strings: the JavaScript string methods the script uses *)

Fixpoint string_drop (n : nat) (s : string) : string :=
  match n, s with
  | O, _ => s
  | S n', String _ s' => string_drop n' s'
  | S _, EmptyString => EmptyString
  end.

(** [s.replace(pat, rep)] with a string pattern: only the first
    occurrence of [pat] is replaced, wherever it stands in [s]. *)
Fixpoint js_replace (pat rep s : string) : string :=
  if String.prefix pat s then rep +:+ string_drop (String.length pat) s
  else match s with
       | EmptyString => EmptyString
       | String c s' => String c (js_replace pat rep s')
       end.

(** [s.endsWith(suf)]. *)
Definition js_endsWith (s suf : string) : bool :=
  String.prefix (String.rev suf) (String.rev s).

(** ** Paths: [path.join] of Node's posix flavour *)

Definition slash : ascii := "/"%char.

(** The segments of a path between separators (empty segments kept). *)
Fixpoint segments (s : string) : list string :=
  match s with
  | EmptyString => [EmptyString]
  | String c s' =>
      if Ascii.eqb c slash then EmptyString :: segments s'
      else match segments s' with
           | [] => [String c EmptyString]
           | seg :: rest => String c seg :: rest
           end
  end.

(** [normalizeString]: the stack of kept segments, last one first.  An
    empty or ["."] segment is dropped, [".."] removes the last kept segment
    unless there is none or it is [".."] itself, in which case it is kept
    only when the path is relative. *)
Fixpoint normalizeString (allowAboveRoot : bool) (segs : list string)
    (kept : list string) : list string :=
  match segs with
  | [] => kept
  | seg :: segs' =>
      if bool_decide (seg = "" ∨ seg = ".") then
        normalizeString allowAboveRoot segs' kept
      else if bool_decide (seg = "..") then
        match kept with
        | last :: kept' =>
            if bool_decide (last = "..") then
              normalizeString allowAboveRoot segs'
                (if allowAboveRoot then ".." :: kept else kept)
            else normalizeString allowAboveRoot segs' kept'
        | [] =>
            normalizeString allowAboveRoot segs'
              (if allowAboveRoot then [".."] else [])
        end
      else normalizeString allowAboveRoot segs' (seg :: kept)
  end.

Fixpoint join_segments (segs : list string) : string :=
  match segs with
  | [] => ""
  | [seg] => seg
  | seg :: segs' => seg +:+ "/" +:+ join_segments segs'
  end.

Definition path_normalize (p : string) : string :=
  if bool_decide (p = "") then "."
  else
    let isAbsolute := String.prefix "/" p in
    let trailingSeparator := js_endsWith p "/" in
    let body :=
      join_segments (rev (normalizeString (negb isAbsolute) (segments p) [])) in
    if bool_decide (body = "") then
      (if isAbsolute then "/" else if trailingSeparator then "./" else ".")
    else
      let body' := if trailingSeparator then body +:+ "/" else body in
      if isAbsolute then "/" +:+ body' else body'.

(** [path.join(a, b)]: empty arguments are left out, the rest is joined
    with the separator and normalized. *)
Definition path_join (a b : string) : string :=
  if bool_decide (a = "") then
    (if bool_decide (b = "") then "." else path_normalize b)
  else if bool_decide (b = "") then path_normalize a
  else path_normalize (a +:+ "/" +:+ b).

(** ** Configuration (lines 7-38) *)

Record SizeSpec := mkSize { suffix : string; width : Z; quality : Z }.

Record Tier := mkTier { files : list string; sizes : list SizeSpec }.

Record Config := mkConfig { large : Tier; product : Tier; review : Tier }.

Definition inputDir : string := "./images/blanche".

Definition config : Config :=
  {| large :=
       {| files := ["004.png"; "019.png"; "023.png"; "032.png"; "037.png";
                    "069.png"; "075.png"];
          sizes := [ mkSize "small" 640 75; mkSize "medium" 1024 75;
                     mkSize "large" 1920 80; mkSize "thumbnail" 400 70 ] |};
     product :=
       {| files := ["2.png"; "3.png"; "5.png"];
          sizes := [ mkSize "small" 640 75; mkSize "medium" 1024 75;
                     mkSize "large" 1920 80 ] |};
     review :=
       {| files := ["Review-0.png"; "Review-1.png"; "Review-2.png";
                    "Review-3.png"];
          sizes := [ mkSize "small" 640 75; mkSize "medium" 1024 75 ] |} |}.

(** ** The filesystem *)

(** What the script can observe of a file: its byte size and, when it
    decodes as an image, its pixel dimensions. *)
Record File := mkFile { file_size : Z; img_width : Z; img_height : Z }.

(** A directory entry.  A dangling link is listed by [readdirSync] but
    neither exists for [existsSync] nor can be read by [statSync].  Each
    key stands for a file of its own: the map has no links that resolve
    and no hard links, so two keys never share a file. *)
Inductive Node :=
| Regular (f : File)
| Directory (dir_size : Z)
| DanglingLink.

(** Entries are keyed by their resolved (normalized) path. *)
Abbreviation FS := (gmap string Node).

Definition fs_lookup (fs : FS) (p : string) : option Node :=
  fs !! path_normalize p.

Definition fs_exists (fs : FS) (p : string) : bool :=
  match fs_lookup fs p with
  | Some (Regular _) | Some (Directory _) => true
  | Some DanglingLink | None => false
  end.

Definition fs_stat_size (fs : FS) (p : string) : option Z :=
  match fs_lookup fs p with
  | Some (Regular f) => Some (file_size f)
  | Some (Directory sz) => Some sz
  | Some DanglingLink | None => None
  end.

(** The size [statSync] reports for a node, when it can be read. *)
Definition node_size (n : Node) : option Z :=
  match n with
  | Regular f => Some (file_size f)
  | Directory sz => Some sz
  | DanglingLink => None
  end.

(** A write replaces the entry at the resolved path by the file written.
    This is what a write does at a path that holds no link; a write at a
    path that holds a link goes to the link's target, which the map does
    not record.  What is stated of the entries a run leaves is stated
    with that in mind: of the path just written, read back, or under the
    assumption that the run left the sources as they were. *)
Definition fs_write (fs : FS) (p : string) (f : File) : FS :=
  <[path_normalize p := Regular f]> fs.

(** [strip_prefix pre s] is the rest of [s] after [pre], when [s] starts
    with [pre]. *)
Fixpoint strip_prefix (pre s : string) : option string :=
  match pre, s with
  | EmptyString, _ => Some s
  | String a pre', String b s' =>
      if Ascii.eqb a b then strip_prefix pre' s' else None
  | String _ _, EmptyString => None
  end.

Fixpoint has_slash (s : string) : bool :=
  match s with
  | EmptyString => false
  | String c s' => Ascii.eqb c slash || has_slash s'
  end.

(** The name under which the entry at [key] is listed in directory
    [dir], if it is one of its direct children. *)
Definition child_name (dir key : string) : option string :=
  match strip_prefix (dir +:+ "/") key with
  | Some name =>
      if bool_decide (name = "") || has_slash name then None else Some name
  | None => None
  end.

Definition fs_children (fs : FS) (dir : string) : list string :=
  omap (child_name dir) (fst <$> map_to_list fs).

Definition fs_readdir (fs : FS) (p : string) : option (list string) :=
  match fs_lookup fs p with
  | Some (Directory _) => Some (fs_children fs (path_normalize p))
  | _ => None
  end.

(** ** The external image codec *)

Inductive Fit := FitCover | FitContain | FitFill | FitInside | FitOutside.

(** The arguments of [.resize(width, height, options)]. *)
Record ResizeOptions := mkResize {
  resize_width : Z;
  resize_height : option Z;
  withoutEnlargement : bool;
  fit : Fit
}.

(** A JavaScript [Error] object, as far as the script reads it. *)
Record Error := mkError { message : string }.

(** What [sharp(input).resize(..).webp({quality}).toFile(output)] settles
    to: the encoded file, which is then written at [output], or a
    rejection carrying an [Error] (the library rejects with [Error]
    objects, whose [message] line 51 reads).  A rejected call leaves the
    filesystem as it was. *)
Inductive CodecResult :=
| Encoded (out : File)
| Rejected (err : Error).

Definition Codec : Type :=
  FS -> string -> ResizeOptions -> Z -> string -> CodecResult.

(** One call of the codec, with how it settled. *)
Record SharpCall := mkCall {
  call_input : string;
  call_options : ResizeOptions;
  call_quality : Z;
  call_output : string;
  call_result : CodecResult
}.

(** ** Console output *)

(** The text of a size as [getFileSize] renders it: the byte count behind
    ["x.xx MB"], or the placeholder ['N/A']. *)
Inductive SizeText :=
| SizeMB (bytes : Z)
| SizeNA.

(** One constructor per [console.log] / [console.error] call of the
    script, carrying the interpolated values. *)
Inductive LogLine :=
| LogStarting                                   (* line 67 *)
| LogTierHeader (tier : string)                 (* lines 73, 102, 131 *)
| LogSkipping (filename : string)               (* lines 78, 107, 136 *)
| LogSource (filename : string) (originalSize : SizeText) (* 83, 112, 141 *)
| LogConverted (outputName : string) (newSize : SizeText) (* 93, 122, 151 *)
| LogFailed (outputName : string)               (* lines 96, 125, 154 *)
| LogRule                                       (* lines 160, 165 *)
| LogComplete                                   (* line 161 *)
| LogSuccessCount (totalConverted : nat)        (* line 162 *)
| LogFailedCount (totalFailed : nat)            (* line 163 *)
| LogOutputDir (dir : string)                   (* line 164 *)
| LogTotalWebp (totalWebpSize : Z)              (* line 175 *)
| LogOriginalEstimate (megabytes : Z)           (* line 176 *)
| LogSavings (percent : Q)                      (* line 177 *)
| ErrConverting (inputPath : string) (msg : string) (* line 51, stderr *)
| ErrFatal (error : Error).                     (* line 182, stderr *)

(** ** The state-and-exception monad of the script *)

Record World := mkWorld {
  fs : FS;
  console : list LogLine;
  sharp_calls : list SharpCall
}.

Inductive Completion (A : Type) :=
| Normal (a : A)
| Throw (e : Error).
Arguments Normal {A} a.
Arguments Throw {A} e.

(** Every [await] of the script waits for the awaited call to settle
    before going on, so the calls are sequenced as plain binds. *)
Definition M (A : Type) : Type := World -> World * Completion A.

Definition ret {A} (a : A) : M A := fun w => (w, Normal a).

Definition throw {A} (e : Error) : M A := fun w => (w, Throw e).

Definition bind {A B} (m : M A) (k : A -> M B) : M B :=
  fun w =>
    match m w with
    | (w', Normal a) => k a w'
    | (w', Throw e) => (w', Throw e)
    end.

(** [try { m } catch (error) { h error }]: the effects of [m] before the
    throw stay. *)
Definition try_catch {A} (m : M A) (h : Error -> M A) : M A :=
  fun w =>
    match m w with
    | (w', Normal a) => (w', Normal a)
    | (w', Throw e) => h e w'
    end.

Notation "x <- c1 ;; c2" := (bind c1 (fun x => c2))
  (at level 100, c1 at next level, right associativity).
Notation "c1 ;; c2" := (bind c1 (fun _ => c2))
  (at level 100, right associativity).

(** [for (const x of xs) { acc = body x acc }], the accumulator standing
    for the local variables the body updates. *)
Fixpoint for_of {A S} (xs : list A) (body : A -> S -> M S) (acc : S) : M S :=
  match xs with
  | [] => ret acc
  | x :: xs' => acc' <- body x acc ;; for_of xs' body acc'
  end.

Definition console_log (l : LogLine) : M unit :=
  fun w => (mkWorld (fs w) (console w ++ [l]) (sharp_calls w), Normal tt).

Definition console_error (l : LogLine) : M unit := console_log l.

Definition existsSync (p : string) : M bool :=
  fun w => (w, Normal (fs_exists (fs w) p)).

Record Stats := mkStats { size : Z }.

Definition statSync (p : string) : M Stats :=
  fun w =>
    match fs_stat_size (fs w) p with
    | Some sz => (w, Normal (mkStats sz))
    | None => (w, Throw (mkError ("ENOENT: no such file or directory, stat '" +:+ p +:+ "'")))
    end.

(** The message of the error [readdirSync] throws: the path exists but is
    not a directory, or it does not exist. *)
Definition scandir_error (exists_ : bool) (p : string) : Error :=
  mkError ((if exists_ then "ENOTDIR: not a directory"
            else "ENOENT: no such file or directory")
           +:+ ", scandir '" +:+ p +:+ "'").

Definition readdirSync (p : string) : M (list string) :=
  fun w =>
    match fs_readdir (fs w) p with
    | Some names => (w, Normal names)
    | None => (w, Throw (scandir_error (fs_exists (fs w) p) p))
    end.

(** The running tally: the locals [totalConverted] and [totalFailed]. *)
Record Tally := mkTally { totalConverted : nat; totalFailed : nat }.

Section Script.

Variable sharp : Codec.

(** The codec call of lines 42-48: the call is recorded, and the encoded
    file is written at the output path when the codec resolves. *)
Definition sharp_toFile (inputPath : string) (opts : ResizeOptions)
    (q : Z) (outputPath : string) : M unit :=
  fun w =>
    let r := sharp (fs w) inputPath opts q outputPath in
    let calls := sharp_calls w ++ [mkCall inputPath opts q outputPath r] in
    match r with
    | Encoded out =>
        (mkWorld (fs_write (fs w) outputPath out) (console w) calls, Normal tt)
    | Rejected err => (mkWorld (fs w) (console w) calls, Throw err)
    end.

(** Lines 40-54. *)
Definition convertImage (inputPath outputPath : string) (width quality : Z)
    : M bool :=
  try_catch
    (sharp_toFile inputPath (mkResize width None true FitInside) quality
       outputPath ;;
     ret true)
    (fun error =>
       console_error (ErrConverting inputPath (message error)) ;;
       ret false).

(** Lines 56-64. *)
Definition getFileSize (filePath : string) : M SizeText :=
  try_catch
    (stats <- statSync filePath ;;
     ret (SizeMB (size stats)))
    (fun _ => ret SizeNA).

(** The output name of lines 86-87. *)
Definition outputNameOf (filename : string) (sz : SizeSpec) : string :=
  let baseName := js_replace ".png" "" filename in
  baseName +:+ "-" +:+ suffix sz +:+ ".webp".

(** The body of the inner loop (lines 85-99, 114-128, 143-157). *)
Definition convertSize (filename inputPath : string) (sz : SizeSpec)
    (t : Tally) : M Tally :=
  let outputName := outputNameOf filename sz in
  let outputPath := path_join inputDir outputName in
  success <- convertImage inputPath outputPath (width sz) (quality sz) ;;
  if (success : bool) then
    newSize <- getFileSize outputPath ;;
    console_log (LogConverted outputName newSize) ;;
    ret (mkTally (S (totalConverted t)) (totalFailed t))
  else
    console_log (LogFailed outputName) ;;
    ret (mkTally (totalConverted t) (S (totalFailed t))).

(** The body of the outer loop (lines 74-100, 103-129, 132-158). *)
Definition convertFile (tier : Tier) (filename : string) (t : Tally)
    : M Tally :=
  let inputPath := path_join inputDir filename in
  found <- existsSync inputPath ;;
  if negb found then
    console_log (LogSkipping filename) ;;
    ret t
  else
    originalSize <- getFileSize inputPath ;;
    console_log (LogSource filename originalSize) ;;
    for_of (sizes tier) (convertSize filename inputPath) t.

(** One of the three loops over a tier's files. *)
Definition convertTier (tier : Tier) (t : Tally) : M Tally :=
  for_of (files tier) (convertFile tier) t.

(** Lines 67-158: the traversal of the three tiers. *)
Definition convertAll : M Tally :=
  console_log LogStarting ;;
  console_log (LogTierHeader "large images (17-25 MB each)") ;;
  t <- convertTier (large config) (mkTally 0 0) ;;
  console_log (LogTierHeader "product images (2.8-3.6 MB)") ;;
  t <- convertTier (product config) t ;;
  console_log (LogTierHeader "review images (1.1-2 MB)") ;;
  convertTier (review config) t.

(** Line 177, on exact rationals. *)
Definition savings (totalWebpSize : Z) : Q :=
  ((1 - inject_Z totalWebpSize / inject_Z (153 * 1024 * 1024)) * 100)%Q.

(** The body of the loop of lines 170-173.  Sizes are added as integers;
    the script adds them as doubles, which is the same below 2^53. *)
Definition addSize (file : string) (totalWebpSize : Z) : M Z :=
  stats <- statSync (path_join inputDir file) ;;
  ret (totalWebpSize + size stats).

(** Lines 168-177. *)
Definition sizeComparison : M unit :=
  names <- readdirSync inputDir ;;
  let webpFiles := filter (fun f => js_endsWith f ".webp" = true) names in
  totalWebpSize <- for_of webpFiles addSize 0 ;;
  console_log (LogTotalWebp totalWebpSize) ;;
  console_log (LogOriginalEstimate 153) ;;
  console_log (LogSavings (savings totalWebpSize)).

(** Lines 66-178.  The function has no [return] statement: its promise
    resolves to [undefined], modelled by [tt]. *)
Definition processImages : M unit :=
  t <- convertAll ;;
  console_log LogRule ;;
  console_log LogComplete ;;
  console_log (LogSuccessCount (totalConverted t)) ;;
  console_log (LogFailedCount (totalFailed t)) ;;
  console_log (LogOutputDir inputDir) ;;
  console_log LogRule ;;
  sizeComparison.

(** Lines 181-184: the exit status of the process.  A rejection is
    reported and the process exits with 1; otherwise Node exits with 0
    once the promise has resolved. *)
Definition main (w : World) : World * Z :=
  match processImages w with
  | (w', Normal _) => (w', 0)
  | (w', Throw error) =>
      (mkWorld (fs w') (console w' ++ [ErrFatal error]) (sharp_calls w'), 1)
  end.

End Script.

(** ** Derived notions used by the statements *)

(** The filesystem after the writes of a list of codec calls, in order. *)
Definition apply_call (m : FS) (c : SharpCall) : FS :=
  match call_result c with
  | Encoded out => fs_write m (call_output c) out
  | Rejected _ => m
  end.

Definition apply_calls (calls : list SharpCall) (m : FS) : FS :=
  fold_left apply_call calls m.

(** A trace of calls records what the codec answered: each result is the
    codec's answer on the filesystem as the earlier calls left it. *)
Fixpoint valid_trace (sharp : Codec) (m : FS) (calls : list SharpCall)
    : Prop :=
  match calls with
  | [] => True
  | c :: calls' =>
      call_result c =
        sharp m (call_input c) (call_options c) (call_quality c)
          (call_output c)
      ∧ valid_trace sharp (apply_call m c) calls'
  end.

(** The tally after counting each call as converted or failed. *)
Definition count_call (t : Tally) (c : SharpCall) : Tally :=
  match call_result c with
  | Encoded _ => mkTally (S (totalConverted t)) (totalFailed t)
  | Rejected _ => mkTally (totalConverted t) (S (totalFailed t))
  end.

Definition count_calls (calls : list SharpCall) (t : Tally) : Tally :=
  fold_left count_call calls t.

(** The call the script makes for a (file, size-spec) pair. *)
Definition call_for (pair : string * SizeSpec) (c : SharpCall) : Prop :=
  call_input c = path_join inputDir pair.1 ∧
  call_options c = mkResize (width pair.2) None true FitInside ∧
  call_quality c = quality pair.2 ∧
  call_output c = path_join inputDir (outputNameOf pair.1 pair.2).

(** The (file, size-spec) pairs of a tier whose source exists in [m]. *)
Definition attempted_pairs (m : FS) (fls : list string) (szs : list SizeSpec)
    : list (string * SizeSpec) :=
  flat_map
    (fun f =>
       if fs_exists m (path_join inputDir f)
       then map (fun sz => (f, sz)) szs else [])
    fls.

Definition attempted (m : FS) (tier : Tier) : list (string * SizeSpec) :=
  attempted_pairs m (files tier) (sizes tier).

Definition attempted_all (m : FS) : list (string * SizeSpec) :=
  attempted m (large config) ++ attempted m (product config)
  ++ attempted m (review config).

(** Keys of the source files and of the output files of a tier. *)
Definition source_keys (tier : Tier) : list string :=
  map (fun f => path_normalize (path_join inputDir f)) (files tier).

Definition output_keys (tier : Tier) : list string :=
  flat_map
    (fun f =>
       map (fun sz => path_normalize (path_join inputDir (outputNameOf f sz)))
         (sizes tier))
    (files tier).

Definition all_source_keys : list string :=
  source_keys (large config) ++ source_keys (product config)
  ++ source_keys (review config).

Definition all_output_keys : list string :=
  output_keys (large config) ++ output_keys (product config)
  ++ output_keys (review config).

(** Every (file, size-spec) pair of the table. *)
Definition tier_pairs (tier : Tier) : list (string * SizeSpec) :=
  flat_map (fun f => map (fun sz => (f, sz)) (sizes tier)) (files tier).

Definition config_pairs : list (string * SizeSpec) :=
  tier_pairs (large config) ++ tier_pairs (product config)
  ++ tier_pairs (review config).

Definition output_key (pair : string * SizeSpec) : string :=
  path_normalize (path_join inputDir (outputNameOf pair.1 pair.2)).

(** Two filesystems hold the same entries at the keys in [keys]. *)
Definition agree_on (keys : list string) (m1 m2 : FS) : Prop :=
  ∀ k, k ∈ keys → m1 !! k = m2 !! k.

(** The [.webp] entries of the input directory and their total size. *)
Definition webp_entries (m : FS) : list string :=
  filter (fun f => js_endsWith f ".webp" = true)
    (fs_children m (path_normalize inputDir)).

Definition entry_size (m : FS) (name : string) : Z :=
  default 0 (fs_stat_size m (path_join inputDir name)).

Definition total_size (m : FS) (names : list string) : Z :=
  foldr (fun name acc => entry_size m name + acc) 0 names.

(** The lines of 160-165 that report the tally. *)
Definition summary_lines (t : Tally) : list LogLine :=
  [LogRule; LogComplete; LogSuccessCount (totalConverted t);
   LogFailedCount (totalFailed t); LogOutputDir inputDir; LogRule].

(** The size summary can be computed: the input directory can be listed
    and each of its [.webp] entries can be read. *)
Definition summary_readable (m : FS) : Prop :=
  ∃ names,
    fs_readdir m inputDir = Some names
    ∧ Forall (fun n => is_Some (fs_stat_size m (path_join inputDir n)))
        (filter (fun f => js_endsWith f ".webp" = true) names).

(** The codec's contract as the script relies on it: asked not to enlarge
    and to fit inside the requested width, it only encodes a regular source
    file, and the result is no wider than requested and no wider than the
    source. *)
Definition never_upscales (sharp : Codec) : Prop :=
  ∀ m inputPath opts q outputPath out,
    sharp m inputPath opts q outputPath = Encoded out →
    withoutEnlargement opts = true →
    fit opts = FitInside →
    ∃ src,
      fs_lookup m inputPath = Some (Regular src)
      ∧ img_width out ≤ resize_width opts
      ∧ img_width out ≤ img_width src.


(** The key of the input directory itself. *)
Definition inputDir_key : string := path_normalize inputDir.

(** The key a call writes at when it resolves. *)
Definition call_key (c : SharpCall) : string :=
  path_normalize (call_output c).

(** [s.includes(pat)]. *)
Fixpoint js_includes (pat s : string) : bool :=
  String.prefix pat s
  || match s with
     | EmptyString => false
     | String _ s' => js_includes pat s'
     end.

(** The number of lines of a log that satisfy [p]. *)
Fixpoint count_lines (p : LogLine -> bool) (l : list LogLine) : nat :=
  match l with
  | [] => O
  | x :: l' => ((if p x then 1 else 0) + count_lines p l')%nat
  end.

Definition is_converted_line (l : LogLine) : bool :=
  match l with LogConverted _ _ => true | _ => false end.

Definition is_failed_line (l : LogLine) : bool :=
  match l with LogFailed _ => true | _ => false end.

Definition is_error_line (l : LogLine) : bool :=
  match l with ErrConverting _ _ => true | _ => false end.

Definition is_skip_line (l : LogLine) : bool :=
  match l with LogSkipping _ => true | _ => false end.

Definition is_source_line (l : LogLine) : bool :=
  match l with LogSource _ _ => true | _ => false end.

(** A success line that shows the placeholder instead of a size. *)
Definition is_unsized_success (l : LogLine) : bool :=
  match l with LogConverted _ SizeNA => true | _ => false end.

(** ** What a traversal does, file by file *)

(** What happens to one configured file: it is skipped, or its source is
    found, its size is shown and the codec is called for its size-specs. *)
Inductive FileEvent :=
| Skipped (filename : string)
| Processed (filename : string) (originalSize : SizeText)
    (calls : list SharpCall).

Definition event_file (ev : FileEvent) : string :=
  match ev with
  | Skipped f => f
  | Processed f _ _ => f
  end.

Definition event_calls (ev : FileEvent) : list SharpCall :=
  match ev with
  | Skipped _ => []
  | Processed _ _ calls => calls
  end.

Definition event_found (ev : FileEvent) : bool :=
  match ev with
  | Skipped _ => false
  | Processed _ _ _ => true
  end.

(** The lines the script prints for one call: the success line with the
    size read back, or the error line of line 51 and the failure line. *)
Definition render_call (filename : string) (sz : SizeSpec) (c : SharpCall)
    : list LogLine :=
  match call_result c with
  | Encoded out =>
      [LogConverted (outputNameOf filename sz) (SizeMB (file_size out))]
  | Rejected err =>
      [ErrConverting (call_input c) (message err);
       LogFailed (outputNameOf filename sz)]
  end.

Fixpoint render_calls (filename : string) (szs : list SizeSpec)
    (calls : list SharpCall) : list LogLine :=
  match szs, calls with
  | sz :: szs', c :: calls' =>
      render_call filename sz c ++ render_calls filename szs' calls'
  | _, _ => []
  end.

Definition render_event (tier : Tier) (ev : FileEvent) : list LogLine :=
  match ev with
  | Skipped f => [LogSkipping f]
  | Processed f originalSize calls =>
      LogSource f originalSize :: render_calls f (sizes tier) calls
  end.

Definition render_events (tier : Tier) (evs : list FileEvent)
    : list LogLine :=
  flat_map (render_event tier) evs.

Definition events_calls (evs : list FileEvent) : list SharpCall :=
  flat_map event_calls evs.

(** A processed file has one call for each size-spec of its tier, in
    order; a skipped file has none. *)
Definition event_ok (tier : Tier) (ev : FileEvent) : Prop :=
  Forall2 call_for
    (if event_found ev
     then map (fun sz => (event_file ev, sz)) (sizes tier) else [])
    (event_calls ev).

(** The events of a tier: one for each of its files, in order. *)
Definition tier_events (tier : Tier) (evs : list FileEvent) : Prop :=
  map event_file evs = files tier ∧ Forall (event_ok tier) evs.

Definition processed_count (evs : list FileEvent) : nat :=
  length (filter (fun ev => event_found ev = true) evs).

(** The calls and the console lines of the three loops. *)
Definition all_calls (e1 e2 e3 : list FileEvent) : list SharpCall :=
  events_calls e1 ++ events_calls e2 ++ events_calls e3.

Definition traversal_console (e1 e2 e3 : list FileEvent) : list LogLine :=
  [LogStarting; LogTierHeader "large images (17-25 MB each)"]
  ++ render_events (large config) e1
  ++ [LogTierHeader "product images (2.8-3.6 MB)"]
  ++ render_events (product config) e2
  ++ [LogTierHeader "review images (1.1-2 MB)"]
  ++ render_events (review config) e3.


(** ** Sample codecs and worlds *)

(** A codec in the spirit of the real one: it needs a regular source
    file and scales it down to the requested width, never up. *)
Definition clamp_codec : Codec :=
  fun m inputPath opts q outputPath =>
    match fs_lookup m inputPath with
    | Some (Regular src) =>
        let w := Z.min (resize_width opts) (img_width src) in
        Encoded (mkFile (w * q) w (img_height src * w / img_width src))
    | _ => Rejected (mkError "Input file is missing")
    end.

(** A codec that rejects every input. *)
Definition failing_codec : Codec :=
  fun _ _ _ _ _ =>
    Rejected (mkError "Input file contains unsupported image format").


(** The input directory holding one large source and a [.webp] file of an
    earlier run. *)
Definition sample_fs : FS :=
  <["images/blanche" := Directory 4096]>
    (<["images/blanche/004.png" := Regular (mkFile 20000000 1000 500)]>
       (<["images/blanche/old.webp" := Regular (mkFile 777 10 10)]> ∅)).

Definition sample_world : World := mkWorld sample_fs [] [].

(** The input directory with no entry. *)
Definition bare_world : World :=
  mkWorld (<["images/blanche" := Directory 4096]> ∅) [] [].

(** A regular file where the input directory should be. *)
Definition file_world : World :=
  mkWorld (<["images/blanche" := Regular (mkFile 12 0 0)]> ∅) [] [].

(** No input directory at all. *)
Definition empty_world : World := mkWorld ∅ [] [].



(** ** The model on concrete inputs *)

Example path_join_source :
  path_join inputDir "004.png" = "images/blanche/004.png".
Proof. reflexivity. Qed.

Example path_join_above :
  path_join "a/b" "../../../c/" = "../c/".
Proof. reflexivity. Qed.

Example path_normalize_absolute :
  path_normalize "/a/../..//b/./" = "/b/".
Proof. reflexivity. Qed.

(** Only the first occurrence of the pattern goes, extension or not. *)
Example js_replace_first :
  js_replace ".png" "" "a.png.png" = "a.png"
  ∧ js_replace ".png" "" "my.pngs.png" = "mys.png"
  ∧ js_replace ".png" "" "photo.jpg" = "photo.jpg".
Proof. repeat split; reflexivity. Qed.

Example js_endsWith_examples :
  js_endsWith "004-small.webp" ".webp" = true
  ∧ js_endsWith "webp" ".webp" = false
  ∧ js_endsWith "004.png" ".webp" = false.
Proof. repeat split; reflexivity. Qed.

(** A whole run where only [004.png] is there. *)
Example sample_run :
  console (main clamp_codec sample_world).1 =
  [LogStarting; LogTierHeader "large images (17-25 MB each)";
   LogSource "004.png" (SizeMB 20000000);
   LogConverted "004-small.webp" (SizeMB 48000);
   LogConverted "004-medium.webp" (SizeMB 75000);
   LogConverted "004-large.webp" (SizeMB 80000);
   LogConverted "004-thumbnail.webp" (SizeMB 28000);
   LogSkipping "019.png"; LogSkipping "023.png"; LogSkipping "032.png";
   LogSkipping "037.png"; LogSkipping "069.png"; LogSkipping "075.png";
   LogTierHeader "product images (2.8-3.6 MB)";
   LogSkipping "2.png"; LogSkipping "3.png"; LogSkipping "5.png";
   LogTierHeader "review images (1.1-2 MB)";
   LogSkipping "Review-0.png"; LogSkipping "Review-1.png";
   LogSkipping "Review-2.png"; LogSkipping "Review-3.png";
   LogRule; LogComplete; LogSuccessCount 4; LogFailedCount 0;
   LogOutputDir "./images/blanche"; LogRule;
   LogTotalWebp 231777; LogOriginalEstimate 153;
   LogSavings (savings 231777)]
  ∧ (main clamp_codec sample_world).2 = 0.
Proof. split; vm_compute; reflexivity. Qed.

(** A run where every conversion fails still ends with status 0. *)
Example failing_run :
  (convertAll failing_codec sample_world).2 = Normal (mkTally 0 4)
  ∧ (main failing_codec sample_world).2 = 0.
Proof. split; vm_compute; reflexivity. Qed.

(** ** Equations of the script's functions *)

Section Equations.

Variable sharp : Codec.

Lemma stat_after_write m p out :
  fs_stat_size (fs_write m p out) p = Some (file_size out).
Proof.
  unfold fs_stat_size, fs_lookup, fs_write.
  by rewrite lookup_insert_eq.
Qed.

Lemma getFileSize_eq p w :
  getFileSize p w =
  (w, Normal (match fs_stat_size (fs w) p with
              | Some sz => SizeMB sz
              | None => SizeNA
              end)).
Proof.
  unfold getFileSize, try_catch, bind, statSync, ret.
  by destruct (fs_stat_size (fs w) p).
Qed.

Lemma convertImage_eq inputPath outputPath wd q w :
  convertImage sharp inputPath outputPath wd q w =
  let r := sharp (fs w) inputPath (mkResize wd None true FitInside) q
             outputPath in
  let calls :=
    sharp_calls w
    ++ [mkCall inputPath (mkResize wd None true FitInside) q outputPath r] in
  match r with
  | Encoded out =>
      (mkWorld (fs_write (fs w) outputPath out) (console w) calls, Normal true)
  | Rejected err =>
      (mkWorld (fs w) (console w ++ [ErrConverting inputPath (message err)])
         calls, Normal false)
  end.
Proof.
  unfold convertImage, try_catch, bind, sharp_toFile, ret, console_error,
    console_log.
  cbv zeta.
  by destruct (sharp (fs w) inputPath _ q outputPath).
Qed.

Lemma convertSize_eq filename inputPath sz t w :
  convertSize sharp filename inputPath sz t w =
  let outputName := outputNameOf filename sz in
  let outputPath := path_join inputDir outputName in
  let r := sharp (fs w) inputPath (mkResize (width sz) None true FitInside)
             (quality sz) outputPath in
  let c := mkCall inputPath (mkResize (width sz) None true FitInside)
             (quality sz) outputPath r in
  match r with
  | Encoded out =>
      (mkWorld (fs_write (fs w) outputPath out)
         (console w ++ [LogConverted outputName (SizeMB (file_size out))])
         (sharp_calls w ++ [c]),
       Normal (mkTally (S (totalConverted t)) (totalFailed t)))
  | Rejected err =>
      (mkWorld (fs w)
         (console w
          ++ [ErrConverting inputPath (message err); LogFailed outputName])
         (sharp_calls w ++ [c]),
       Normal (mkTally (totalConverted t) (S (totalFailed t))))
  end.
Proof.
  unfold convertSize. cbv zeta. unfold bind at 1.
  rewrite convertImage_eq. cbv zeta.
  destruct (sharp (fs w) inputPath _ (quality sz) _) as [out|err].
  - unfold bind at 1. rewrite getFileSize_eq. cbn [fs].
    rewrite stat_after_write.
    reflexivity.
  - unfold bind, console_log, ret. cbn [fs console sharp_calls].
    by rewrite <- app_assoc.
Qed.

End Equations.

(** ** The loops: what a traversal does to the world *)

Section Loops.

Variable sharp : Codec.

Lemma apply_calls_app d1 d2 m :
  apply_calls (d1 ++ d2) m = apply_calls d2 (apply_calls d1 m).
Proof. apply fold_left_app. Qed.

Lemma count_calls_app d1 d2 t :
  count_calls (d1 ++ d2) t = count_calls d2 (count_calls d1 t).
Proof. apply fold_left_app. Qed.

Lemma count_calls_total d : ∀ t,
  (totalConverted (count_calls d t) + totalFailed (count_calls d t) =
   totalConverted t + totalFailed t + length d)%nat.
Proof.
  induction d as [|c d IH]; intros t; cbn.
  - lia.
  - unfold count_calls in IH. rewrite IH. unfold count_call.
    destruct (call_result c); cbn; lia.
Qed.

Lemma valid_trace_app d1 d2 m :
  valid_trace sharp m (d1 ++ d2) ↔
  valid_trace sharp m d1 ∧ valid_trace sharp (apply_calls d1 m) d2.
Proof.
  revert m. induction d1 as [|c d1 IH]; intros m; cbn.
  - tauto.
  - rewrite IH. tauto.
Qed.

Lemma log_then {A} (l : LogLine) (k : M A) w :
  (console_log l ;; k) w =
  k (mkWorld (fs w) (console w ++ [l]) (sharp_calls w)).
Proof. reflexivity. Qed.

(** The inner loop over the size-specs of one file. *)
Lemma convertSizes_spec filename szs : ∀ w t,
  ∃ delta clog,
    for_of szs (convertSize sharp filename (path_join inputDir filename)) t w =
      (mkWorld (apply_calls delta (fs w)) (console w ++ clog)
         (sharp_calls w ++ delta),
       Normal (count_calls delta t))
    ∧ Forall2 call_for (map (fun sz => (filename, sz)) szs) delta
    ∧ valid_trace sharp (fs w) delta.
Proof.
  induction szs as [|sz szs IH]; intros w t.
  - exists [], []. cbn. rewrite !app_nil_r. by destruct w.
  - cbn [for_of]. unfold bind at 1. rewrite convertSize_eq. cbv zeta.
    set (r := sharp _ _ _ _ _).
    set (c := mkCall _ _ _ _ r).
    assert (Hc : call_for (filename, sz) c) by done.
    assert (Hv : call_result c =
                 sharp (fs w) (call_input c) (call_options c)
                   (call_quality c) (call_output c)) by done.
    destruct r as [out|err] eqn:Hr.
    + edestruct IH as (delta & clog & -> & HF & HV).
      exists (c :: delta), (LogConverted (outputNameOf filename sz)
                              (SizeMB (file_size out)) :: clog).
      cbn [fs console sharp_calls map] in *.
      split; [|split; [by constructor|]].
      * rewrite <- !app_assoc. cbn [app apply_calls fold_left].
        subst c. cbn. reflexivity.
      * split; [exact Hv|]. subst c. exact HV.
    + edestruct IH as (delta & clog & -> & HF & HV).
      exists (c :: delta), (ErrConverting (path_join inputDir filename)
                              (message err)
                            :: LogFailed (outputNameOf filename sz) :: clog).
      cbn [fs console sharp_calls map] in *.
      split; [|split; [by constructor|]].
      * rewrite <- !app_assoc. cbn [app apply_calls fold_left].
        subst c. cbn. reflexivity.
      * split; [exact Hv|]. subst c. exact HV.
Qed.

(** A file whose source does not exist is skipped. *)
Lemma convertFile_missing tier filename t w :
  fs_exists (fs w) (path_join inputDir filename) = false →
  convertFile sharp tier filename t w =
  (mkWorld (fs w) (console w ++ [LogSkipping filename]) (sharp_calls w),
   Normal t).
Proof.
  intros H. unfold convertFile. cbv zeta.
  unfold bind at 1, existsSync. rewrite H. reflexivity.
Qed.

(** A file whose source exists: one call per size-spec. *)
Lemma convertFile_found tier filename t w :
  fs_exists (fs w) (path_join inputDir filename) = true →
  ∃ delta clog,
    convertFile sharp tier filename t w =
      (mkWorld (apply_calls delta (fs w)) (console w ++ clog)
         (sharp_calls w ++ delta),
       Normal (count_calls delta t))
    ∧ Forall2 call_for (map (fun sz => (filename, sz)) (sizes tier)) delta
    ∧ valid_trace sharp (fs w) delta.
Proof.
  intros H. unfold convertFile. cbv zeta.
  unfold bind at 1, existsSync. rewrite H. cbn [negb].
  unfold bind at 1. rewrite getFileSize_eq. rewrite log_then.
  edestruct (convertSizes_spec filename (sizes tier))
    as (delta & clog & -> & HF & HV).
  cbn [fs console sharp_calls] in *.
  eexists delta, (_ :: clog). split; [|done].
  by rewrite <- app_assoc.
Qed.

(** Writes outside [keys] leave the entries at [keys] alone. *)
Lemma agree_on_refl keys m : agree_on keys m m.
Proof. by intros k _. Qed.

Lemma agree_on_trans keys m1 m2 m3 :
  agree_on keys m1 m2 → agree_on keys m2 m3 → agree_on keys m1 m3.
Proof. intros H12 H23 k Hk. rewrite H12; auto. Qed.

Lemma agree_on_apply_calls (keys : list string) delta : ∀ m,
  Forall (fun c => path_normalize (call_output c) ∉ keys) delta →
  agree_on keys m (apply_calls delta m).
Proof.
  induction delta as [|c delta IH]; intros m HF.
  - apply agree_on_refl.
  - inversion HF as [|? ? Hc HF']; subst.
    cbn. eapply agree_on_trans; [|apply IH; exact HF'].
    intros k Hk. unfold apply_call. destruct (call_result c); [|done].
    unfold fs_write. rewrite lookup_insert_ne; [done|].
    intros Heq. apply Hc. by rewrite Heq.
Qed.

Lemma fs_exists_agree keys m1 m2 p :
  agree_on keys m1 m2 → path_normalize p ∈ keys →
  fs_exists m1 p = fs_exists m2 p.
Proof.
  intros Ha Hk. unfold fs_exists, fs_lookup. by rewrite (Ha _ Hk).
Qed.

Lemma attempted_pairs_agree keys m1 m2 fls szs :
  agree_on keys m1 m2 →
  (∀ f, f ∈ fls → path_normalize (path_join inputDir f) ∈ keys) →
  attempted_pairs m1 fls szs = attempted_pairs m2 fls szs.
Proof.
  intros Ha. unfold attempted_pairs.
  induction fls as [|f fls IH]; intros Hk; [done|].
  cbn [flat_map]. rewrite (fs_exists_agree keys m1 m2); [|done|].
  - rewrite IH; [done|]. intros g Hg. apply Hk. by right.
  - apply Hk. by left.
Qed.

Lemma call_for_output_keys (f : string) szs delta (keys : list string) :
  (∀ sz, sz ∈ szs →
     path_normalize (path_join inputDir (outputNameOf f sz)) ∉ keys) →
  Forall2 call_for (map (fun sz => (f, sz)) szs) delta →
  Forall (fun c => path_normalize (call_output c) ∉ keys) delta.
Proof.
  revert delta. induction szs as [|sz szs IH]; intros delta Hk HF.
  - inversion HF; subst. constructor.
  - inversion HF as [|? c ? delta' Hc HF']; subst. constructor.
    + destruct Hc as (_ & _ & _ & ->). cbn. apply Hk. by left.
    + apply IH; [|done]. intros sz' Hsz'. apply Hk. by right.
Qed.

(** The loop over the files of a tier.  When no output of the tier lands on
    one of [keys] and the tier's sources are among [keys], the calls made
    are those of the pairs whose source exists at the start. *)
Lemma convertFiles_spec tier (keys : list string) fls :
  (∀ f, f ∈ fls → path_normalize (path_join inputDir f) ∈ keys) →
  (∀ f sz, f ∈ fls → sz ∈ sizes tier →
     path_normalize (path_join inputDir (outputNameOf f sz)) ∉ keys) →
  ∀ w t,
  ∃ delta clog,
    for_of fls (convertFile sharp tier) t w =
      (mkWorld (apply_calls delta (fs w)) (console w ++ clog)
         (sharp_calls w ++ delta),
       Normal (count_calls delta t))
    ∧ Forall2 call_for (attempted_pairs (fs w) fls (sizes tier)) delta
    ∧ Forall (fun c => path_normalize (call_output c) ∉ keys) delta
    ∧ valid_trace sharp (fs w) delta.
Proof.
  induction fls as [|f fls IH]; intros Hsrc Hout w t.
  - exists [], []. cbn. rewrite !app_nil_r. split; [by destruct w|].
    split; [constructor|]. split; [constructor|done].
  - assert (Hsrc' : ∀ g, g ∈ fls →
              path_normalize (path_join inputDir g) ∈ keys).
    { intros g Hg. apply Hsrc. by right. }
    assert (Hout' : ∀ g sz, g ∈ fls → sz ∈ sizes tier →
              path_normalize (path_join inputDir (outputNameOf g sz)) ∉ keys).
    { intros g sz Hg. apply Hout. by right. }
    cbn [for_of attempted_pairs flat_map]. unfold bind at 1.
    destruct (fs_exists (fs w) (path_join inputDir f)) eqn:Hex.
    + destruct (convertFile_found tier f t w Hex)
        as (d1 & c1 & -> & HF1 & HV1).
      assert (Hk1 : Forall (fun c => path_normalize (call_output c) ∉ keys) d1).
      { eapply call_for_output_keys; [|exact HF1].
        intros sz Hsz. apply Hout; [by left|done]. }
      edestruct (IH Hsrc' Hout') as (d2 & c2 & -> & HF2 & Hk2 & HV2).
      cbn [fs console sharp_calls] in *.
      exists (d1 ++ d2), (c1 ++ c2).
      rewrite apply_calls_app, count_calls_app, !app_assoc.
      split; [done|].
      split; [|split; [by apply Forall_app|by apply valid_trace_app]].
      apply Forall2_app; [done|].
      fold (attempted_pairs (fs w) fls (sizes tier)).
      rewrite (attempted_pairs_agree keys (fs w) (apply_calls d1 (fs w)));
        [done| |done].
      by apply agree_on_apply_calls.
    + rewrite (convertFile_missing tier f t w Hex).
      edestruct (IH Hsrc' Hout') as (d2 & c2 & -> & HF2 & Hk2 & HV2).
      cbn [fs console sharp_calls] in *.
      exists d2, (LogSkipping f :: c2).
      rewrite <- app_assoc. cbn [app]. done.
Qed.

(** In the configured table no output path is a source path. *)
Lemma outputs_not_sources :
  Forall (fun k => k ∉ all_source_keys) all_output_keys.
Proof.
  apply (bool_decide_unpack
           (Forall (fun k => k ∉ all_source_keys) all_output_keys)).
  vm_compute. exact I.
Qed.

Lemma tier_sources_in_keys tier :
  source_keys tier ⊆ all_source_keys →
  ∀ f, f ∈ files tier →
    path_normalize (path_join inputDir f) ∈ all_source_keys.
Proof.
  intros Hsub f Hf. apply Hsub. unfold source_keys.
  apply list_elem_of_fmap. by exists f.
Qed.

Lemma tier_outputs_not_keys tier :
  output_keys tier ⊆ all_output_keys →
  ∀ f sz, f ∈ files tier → sz ∈ sizes tier →
    path_normalize (path_join inputDir (outputNameOf f sz)) ∉ all_source_keys.
Proof.
  intros Hsub f sz Hf Hsz.
  pose proof outputs_not_sources as HF.
  rewrite Forall_forall in HF. apply HF, Hsub.
  unfold output_keys. apply list_elem_of_In, in_flat_map.
  exists f. split; [by apply list_elem_of_In|].
  apply list_elem_of_In, list_elem_of_fmap. by exists sz.
Qed.

(** One configured tier, started from a world that agrees with [m0] on the
    sources. *)
Lemma convertTier_spec tier m0 :
  source_keys tier ⊆ all_source_keys →
  output_keys tier ⊆ all_output_keys →
  ∀ w t,
  agree_on all_source_keys m0 (fs w) →
  ∃ delta clog,
    convertTier sharp tier t w =
      (mkWorld (apply_calls delta (fs w)) (console w ++ clog)
         (sharp_calls w ++ delta),
       Normal (count_calls delta t))
    ∧ Forall2 call_for (attempted m0 tier) delta
    ∧ agree_on all_source_keys m0 (apply_calls delta (fs w))
    ∧ Forall (fun c => path_normalize (call_output c) ∉ all_source_keys)
        delta
    ∧ valid_trace sharp (fs w) delta.
Proof.
  intros Hsrc Hout w t Hagree.
  destruct (convertFiles_spec tier all_source_keys (files tier)
              (tier_sources_in_keys tier Hsrc)
              (tier_outputs_not_keys tier Hout) w t)
    as (delta & clog & Heq & HF & Hk & HV).
  exists delta, clog. split; [exact Heq|]. split; [|split; [|done]].
  - unfold attempted.
    rewrite (attempted_pairs_agree all_source_keys m0 (fs w)); [done|done|].
    by apply tier_sources_in_keys.
  - eapply agree_on_trans; [exact Hagree|]. by apply agree_on_apply_calls.
Qed.

Local Ltac in_all_keys :=
  intros k Hk; unfold all_source_keys, all_output_keys;
  rewrite !elem_of_app; auto.


(** The whole traversal: it never throws, makes exactly the calls of the
    pairs whose source exists at the start, in table order, and its tally
    counts those calls. *)
Lemma convertAll_spec w :
  ∃ delta clog,
    convertAll sharp w =
      (mkWorld (apply_calls delta (fs w)) (console w ++ clog)
         (sharp_calls w ++ delta),
       Normal (count_calls delta (mkTally 0 0)))
    ∧ Forall2 call_for (attempted_all (fs w)) delta
    ∧ agree_on all_source_keys (fs w) (apply_calls delta (fs w))
    ∧ Forall (fun c => path_normalize (call_output c) ∉ all_source_keys)
        delta
    ∧ valid_trace sharp (fs w) delta.
Proof.
  unfold convertAll. rewrite !log_then.
  set (w0 := mkWorld _ _ _).
  destruct (convertTier_spec (large config) (fs w)
              ltac:(in_all_keys) ltac:(in_all_keys) w0 (mkTally 0 0)
              (agree_on_refl _ _))
    as (d1 & c1 & E1 & F1 & A1 & K1 & V1).
  unfold bind at 1. rewrite E1. rewrite log_then.
  set (w1 := mkWorld _ _ _).
  destruct (convertTier_spec (product config) (fs w)
              ltac:(in_all_keys) ltac:(in_all_keys) w1
              (count_calls d1 (mkTally 0 0)) A1)
    as (d2 & c2 & E2 & F2 & A2 & K2 & V2).
  unfold bind at 1. rewrite E2. rewrite log_then.
  set (w2 := mkWorld _ _ _).
  destruct (convertTier_spec (review config) (fs w)
              ltac:(in_all_keys) ltac:(in_all_keys) w2
              (count_calls d2 (count_calls d1 (mkTally 0 0))) A2)
    as (d3 & c3 & E3 & F3 & A3 & K3 & V3).
  rewrite E3. subst w0 w1 w2. cbn [fs console sharp_calls] in *.
  exists (d1 ++ d2 ++ d3).
  eexists. split; [|split; [|split; [|split]]].
  - rewrite !apply_calls_app, !count_calls_app.
    rewrite <- !app_assoc. cbn [app]. reflexivity.
  - unfold attempted_all. by repeat apply Forall2_app.
  - by rewrite !apply_calls_app.
  - by repeat apply Forall_app_2.
  - rewrite !valid_trace_app. done.
Qed.

End Loops.

(** ** The size summary and the top level *)

Section Summary.

Variable sharp : Codec.

Lemma addSize_eq file total w :
  addSize file total w =
  match fs_stat_size (fs w) (path_join inputDir file) with
  | Some sz => (w, Normal (total + sz))
  | None =>
      (w, Throw (mkError ("ENOENT: no such file or directory, stat '"
                          +:+ path_join inputDir file +:+ "'")))
  end.
Proof.
  unfold addSize, bind, statSync, ret.
  by destruct (fs_stat_size (fs w) (path_join inputDir file)).
Qed.

(** The loop of lines 170-173: it adds up the sizes, or throws at the
    first entry that cannot be read; the world is left as it is. *)
Lemma stat_loop_eq names : ∀ acc w,
  (Forall (fun n => is_Some (fs_stat_size (fs w) (path_join inputDir n)))
     names
   ∧ for_of names addSize acc w
     = (w, Normal (acc + total_size (fs w) names)))
  ∨ (Exists (fun n => fs_stat_size (fs w) (path_join inputDir n) = None)
       names
     ∧ ∃ e, for_of names addSize acc w = (w, Throw e)).
Proof.
  induction names as [|n names IH]; intros acc w.
  - left. split; [constructor|]. cbn. unfold ret. by rewrite Z.add_0_r.
  - cbn [for_of]. unfold bind. rewrite addSize_eq.
    destruct (fs_stat_size (fs w) (path_join inputDir n)) as [sz|] eqn:Hst.
    + destruct (IH (acc + sz) w) as [[HF ->]|[HE [e ->]]].
      * left. split; [constructor; [by rewrite Hst|done]|].
        cbn [total_size foldr]. unfold entry_size at 1. rewrite Hst. cbn.
        do 2 f_equal. fold (total_size (fs w) names). lia.
      * right. split; [by apply Exists_cons_tl|]. by exists e.
    + right. split; [by apply Exists_cons_hd|]. eauto.
Qed.

(** Lines 168-177 as one equation. *)
Lemma sizeComparison_eq w :
  sizeComparison w =
  match fs_readdir (fs w) inputDir with
  | None => (w, Throw (scandir_error (fs_exists (fs w) inputDir) inputDir))
  | Some names =>
      let webpFiles := filter (fun f => js_endsWith f ".webp" = true) names in
      match for_of webpFiles addSize 0 w with
      | (w1, Normal totalWebpSize) =>
          (mkWorld (fs w1)
             (console w1
              ++ [LogTotalWebp totalWebpSize; LogOriginalEstimate 153;
                  LogSavings (savings totalWebpSize)])
             (sharp_calls w1), Normal tt)
      | (w1, Throw e) => (w1, Throw e)
      end
  end.
Proof.
  unfold sizeComparison. unfold bind at 1, readdirSync.
  destruct (fs_readdir (fs w) inputDir) as [names|]; [|done].
  cbv zeta. unfold bind at 1.
  destruct (for_of _ _ 0 w) as [w1 [total|e]]; [|done].
  rewrite !log_then. unfold console_log. cbn [fs console sharp_calls].
  by rewrite <- !app_assoc.
Qed.

(** The summary never touches the filesystem or the call trace, and only
    appends to the console. *)
Lemma sizeComparison_frame w :
  ∃ post r,
    sizeComparison w =
    (mkWorld (fs w) (console w ++ post) (sharp_calls w), r).
Proof.
  rewrite sizeComparison_eq.
  destruct (fs_readdir (fs w) inputDir) as [names|].
  - cbv zeta.
    destruct (stat_loop_eq
                (filter (fun f => js_endsWith f ".webp" = true) names) 0 w)
      as [[_ ->]|[_ [e ->]]].
    + eexists _, _. reflexivity.
    + exists [], (Throw e). rewrite app_nil_r. by destruct w.
  - eexists [], _. rewrite app_nil_r. by destruct w.
Qed.

(** The summary completes exactly when the directory and its [.webp]
    entries can be read. *)
Lemma sizeComparison_normal_iff w :
  (∃ w', sizeComparison w = (w', Normal tt)) ↔ summary_readable (fs w).
Proof.
  rewrite sizeComparison_eq. unfold summary_readable.
  destruct (fs_readdir (fs w) inputDir) as [names|].
  - cbv zeta.
    destruct (stat_loop_eq
                (filter (fun f => js_endsWith f ".webp" = true) names) 0 w)
      as [[HF ->]|[HE [e ->]]].
    + split; [by exists names|eauto].
    + split; [by intros (? & ?)|].
      intros (names' & Heq & HF). simplify_eq.
      apply Exists_exists in HE as (n & Hn & Hnone).
      rewrite Forall_forall in HF. specialize (HF n Hn).
      rewrite Hnone in HF. by destruct HF.
  - split; [by intros (? & ?)|]. by intros (? & ? & _).
Qed.

(** What the summary reports when it completes. *)
Lemma sizeComparison_normal w w1 :
  sizeComparison w = (w1, Normal tt) →
  w1 = mkWorld (fs w)
         (console w
          ++ [LogTotalWebp (total_size (fs w) (webp_entries (fs w)));
              LogOriginalEstimate 153;
              LogSavings (savings (total_size (fs w) (webp_entries (fs w))))])
         (sharp_calls w)
  ∧ Forall (fun n => is_Some (fs_stat_size (fs w) (path_join inputDir n)))
      (webp_entries (fs w)).
Proof.
  rewrite sizeComparison_eq. unfold webp_entries, fs_readdir.
  destruct (fs_lookup (fs w) inputDir) as [[| |]|]; try done.
  cbv zeta.
  destruct (stat_loop_eq
              (filter (fun f => js_endsWith f ".webp" = true)
                 (fs_children (fs w) (path_normalize inputDir))) 0 w)
    as [[HF ->]|[HE [e ->]]]; [|done].
  rewrite Z.add_0_l. intros [= <-]. done.
Qed.

(** [processImages] in terms of the traversal and the size summary. *)
Lemma processImages_eq w wt t :
  convertAll sharp w = (wt, Normal t) →
  processImages sharp w =
  sizeComparison
    (mkWorld (fs wt) (console wt ++ summary_lines t) (sharp_calls wt)).
Proof.
  intros H. unfold processImages. unfold bind at 1. rewrite H.
  rewrite !log_then. cbn [fs console sharp_calls].
  by rewrite <- !app_assoc.
Qed.

End Summary.

(** ** Files that are skipped leave no trace *)

Lemma attempted_pairs_in m fls szs (pr : string * SizeSpec) :
  pr ∈ attempted_pairs m fls szs →
  pr ∈ flat_map (fun f => map (fun sz => (f, sz)) szs) fls
  ∧ fs_exists m (path_join inputDir pr.1) = true.
Proof.
  unfold attempted_pairs. rewrite !list_elem_of_In, !in_flat_map.
  intros (f & Hf & Hin).
  destruct (fs_exists m (path_join inputDir f)) eqn:Hex; [|done].
  split; [by exists f|].
  apply in_map_iff in Hin as (sz & <- & _). done.
Qed.

Lemma attempted_all_in m (pr : string * SizeSpec) :
  pr ∈ attempted_all m →
  pr ∈ config_pairs ∧ fs_exists m (path_join inputDir pr.1) = true.
Proof.
  unfold attempted_all, attempted, config_pairs, tier_pairs.
  rewrite !elem_of_app.
  intros [H|[H|H]]; apply attempted_pairs_in in H as [H1 H2]; auto.
Qed.

(** In the configured table two pairs with the same output path are pairs
    of the same file. *)
Lemma config_outputs_distinct :
  Forall (fun p1 : string * SizeSpec =>
            Forall (fun p2 : string * SizeSpec =>
                      output_key p1 = output_key p2 → p1.1 = p2.1)
              config_pairs)
    config_pairs.
Proof.
  apply (bool_decide_unpack
           (Forall (fun p1 : string * SizeSpec =>
                      Forall (fun p2 : string * SizeSpec =>
                                output_key p1 = output_key p2 → p1.1 = p2.1)
                        config_pairs)
              config_pairs)).
  vm_compute. exact I.
Qed.

(** ** Directory listings *)

Lemma string_app_cons a (x y : string) :
  String a x +:+ y = String a (x +:+ y).
Proof. reflexivity. Qed.

Lemma string_app_assoc (x y z : string) :
  (x +:+ y) +:+ z = x +:+ y +:+ z.
Proof.
  induction x as [|a x IH]; [done|].
  by rewrite !string_app_cons, IH.
Qed.

Lemma strip_prefix_Some pre : ∀ s r,
  strip_prefix pre s = Some r ↔ s = pre +:+ r.
Proof.
  induction pre as [|a pre IH]; intros s r.
  - cbn. split; [by intros [= ->]|by intros ->].
  - rewrite string_app_cons. destruct s as [|b s]; [done|]. cbn.
    destruct (Ascii.eqb_spec a b) as [->|Hne].
    + rewrite IH. split; [by intros ->|by intros [= ->]].
    + split; [done|]. intros [= ? ?]. congruence.
Qed.

Lemma child_name_Some dir key name :
  child_name dir key = Some name ↔
  key = dir +:+ "/" +:+ name ∧ name ≠ "" ∧ has_slash name = false.
Proof.
  unfold child_name.
  destruct (strip_prefix (dir +:+ "/") key) as [r|] eqn:Hs.
  - apply strip_prefix_Some in Hs. subst key.
    rewrite string_app_assoc.
    destruct (bool_decide (r = "")) eqn:Hr; cbn.
    + apply bool_decide_eq_true in Hr. split; [done|].
      intros (Heq & Hne & _). do 2 apply (inj _) in Heq. congruence.
    + apply bool_decide_eq_false in Hr.
      destruct (has_slash r) eqn:Hsl.
      * split; [done|]. intros (Heq & _ & Hno).
        do 2 apply (inj _) in Heq. congruence.
      * split; [by intros [= <-]|].
        intros (Heq & _ & _). do 2 apply (inj _) in Heq. congruence.
  - split; [done|]. intros (-> & _ & _).
    assert (Hsome : strip_prefix (dir +:+ "/") (dir +:+ "/" +:+ name)
                    = Some name).
    { apply strip_prefix_Some. by rewrite string_app_assoc. }
    congruence.
Qed.

(** The listing of a directory: the names of the entries right under it. *)
Lemma elem_of_fs_children (m : FS) dir name :
  name ∈ fs_children m dir ↔
  is_Some (m !! (dir +:+ "/" +:+ name)) ∧ name ≠ ""
  ∧ has_slash name = false.
Proof.
  unfold fs_children. rewrite list_elem_of_omap. split.
  - intros (key & Hkey & Hc). apply child_name_Some in Hc as (-> & ? & ?).
    split; [|done].
    apply list_elem_of_fmap in Hkey as ([k v] & Hk & Hkv). cbn in Hk.
    subst k. apply elem_of_map_to_list in Hkv. eauto.
  - intros ([v Hv] & Hne & Hsl). exists (dir +:+ "/" +:+ name). split.
    + apply list_elem_of_fmap. exists (dir +:+ "/" +:+ name, v).
      split; [done|]. by apply elem_of_map_to_list.
    + by apply child_name_Some.
Qed.

Lemma NoDup_fs_children (m : FS) dir : NoDup (fs_children m dir).
Proof.
  unfold fs_children.
  pose proof (NoDup_fst_map_to_list m) as HND.
  induction HND as [|k ks Hk HND IH]; cbn [omap list_omap]; [constructor|].
  destruct (child_name dir k) as [name|] eqn:Hc; [|done].
  constructor; [|done].
  rewrite list_elem_of_omap. intros (k' & Hk' & Hc').
  apply child_name_Some in Hc as (-> & _).
  apply child_name_Some in Hc' as (-> & _). done.
Qed.

(** The writes of a run only add or replace entries. *)
Lemma apply_calls_is_Some delta : ∀ (m : FS) k,
  is_Some (m !! k) → is_Some (apply_calls delta m !! k).
Proof.
  induction delta as [|c delta IH]; intros m k Hk; [done|].
  cbn. apply IH. unfold apply_call.
  destruct (call_result c); [|done].
  unfold fs_write. rewrite lookup_insert. by case_decide.
Qed.

(** ** Traces against the sources *)

Section Traces.

Variable sharp : Codec.

(** In the configured table every source path is one of the source keys. *)
Lemma config_pairs_sources :
  Forall (fun pr : string * SizeSpec =>
            path_normalize (path_join inputDir pr.1) ∈ all_source_keys)
    config_pairs.
Proof.
  apply (bool_decide_unpack
           (Forall (fun pr : string * SizeSpec =>
                      path_normalize (path_join inputDir pr.1)
                      ∈ all_source_keys)
              config_pairs)).
  vm_compute. exact I.
Qed.






End Traces.

(** ** Resolving the path of a directory entry *)

Lemma segments_noslash name :
  has_slash name = false → segments name = [name].
Proof.
  induction name as [|c name IH]; [done|].
  cbn. destruct (Ascii.eqb c slash); [done|]. cbn.
  intros H. by rewrite IH.
Qed.

Lemma rev_app_app (x y acc : string) :
  String.rev_app (x +:+ y) acc = String.rev_app y (String.rev_app x acc).
Proof.
  revert acc. induction x as [|a x IH]; intros acc; [done|].
  rewrite string_app_cons. cbn. apply IH.
Qed.

Lemma rev_app_no_slash name : ∀ acc,
  name ≠ "" → has_slash name = false →
  String.prefix "/" (String.rev_app name acc) = false.
Proof.
  induction name as [|c name IH]; intros acc Hne Hs; [done|].
  cbn in Hs. apply orb_false_iff in Hs as [Hc Hs].
  destruct name as [|c' name'].
  - cbn [String.rev_app String.prefix].
    destruct (ascii_dec "/" c) as [<-|]; [|done].
    unfold slash in Hc. by rewrite Ascii.eqb_refl in Hc.
  - change (String.rev_app (String c (String c' name')) acc)
      with (String.rev_app (String c' name') (String c acc)).
    by apply IH.
Qed.

Lemma endsWith_slash_false pre name :
  name ≠ "" → has_slash name = false →
  js_endsWith (pre +:+ name) "/" = false.
Proof.
  intros Hne Hs. unfold js_endsWith, String.rev.
  rewrite rev_app_app.
  change (String.rev_app "/" "") with "/".
  by apply rev_app_no_slash.
Qed.

Lemma normalizeString_app b segs1 : ∀ segs2 kept,
  normalizeString b (segs1 ++ segs2) kept
  = normalizeString b segs2 (normalizeString b segs1 kept).
Proof.
  induction segs1 as [|seg segs1 IH]; intros segs2 kept; [done|].
  cbn [app normalizeString].
  repeat case_match; apply IH.
Qed.

(** A plain name under the input directory resolves to the key of that
    entry, whether the directory is written with or without its leading
    [./]. *)
Lemma normalize_child pre name :
  pre = "./images/blanche/" ∨ pre = "images/blanche/" →
  has_slash name = false → name ≠ "" → name ≠ "." → name ≠ ".." →
  path_normalize (pre +:+ name) = "images/blanche/" +:+ name.
Proof.
  intros Hpre Hs Hne Hd Hdd.
  assert (Hseg : ∃ psegs,
            segments (pre +:+ name) = psegs ++ [name]
            ∧ normalizeString true psegs [] = ["blanche"; "images"]
            ∧ String.prefix "/" (pre +:+ name) = false
            ∧ pre +:+ name ≠ "").
  { destruct Hpre as [-> | ->].
    - exists ["."; "images"; "blanche"].
      rewrite !string_app_cons. change ("" +:+ name) with name.
      split; [|done]. cbn. by rewrite segments_noslash.
    - exists ["images"; "blanche"].
      rewrite !string_app_cons. change ("" +:+ name) with name.
      split; [|done]. cbn. by rewrite segments_noslash. }
  destruct Hseg as (psegs & Hsegs & Hnorm & Habs & Hnon).
  unfold path_normalize.
  rewrite (bool_decide_eq_false_2 _ Hnon), Habs, Hsegs.
  rewrite endsWith_slash_false by done.
  cbn [negb]. rewrite normalizeString_app, Hnorm. cbn [normalizeString].
  rewrite (bool_decide_eq_false_2 (name = "" ∨ name = ".")) by tauto.
  rewrite (bool_decide_eq_false_2 (name = "..")) by done.
  change (join_segments (rev [name; "blanche"; "images"]))
    with ("images/blanche/" +:+ name).
  by rewrite bool_decide_eq_false_2.
Qed.

Lemma path_join_child name :
  has_slash name = false → name ≠ "" → name ≠ "." → name ≠ ".." →
  path_normalize (path_join inputDir name) = "images/blanche/" +:+ name.
Proof.
  intros Hs Hne Hd Hdd. unfold path_join.
  rewrite (bool_decide_eq_false_2 (inputDir = "")) by done.
  rewrite (bool_decide_eq_false_2 (name = "")) by done.
  change (inputDir +:+ "/" +:+ name) with ("./images/blanche/" +:+ name).
  rewrite (normalize_child "./images/blanche/") by auto.
  by apply normalize_child; auto.
Qed.

Lemma webp_name_plain name :
  js_endsWith name ".webp" = true → name ≠ "." ∧ name ≠ "..".
Proof. by split; intros ->. Qed.

(** ** The traversal as a list of events *)

Section Events.

Variable sharp : Codec.

Lemma convertSizes_events filename szs : ∀ w t,
  ∃ calls,
    for_of szs (convertSize sharp filename (path_join inputDir filename)) t w
    = (mkWorld (apply_calls calls (fs w))
         (console w ++ render_calls filename szs calls)
         (sharp_calls w ++ calls),
       Normal (count_calls calls t))
    ∧ Forall2 call_for (map (fun sz => (filename, sz)) szs) calls
    ∧ valid_trace sharp (fs w) calls.
Proof.
  induction szs as [|sz szs IH]; intros w t.
  - exists []. cbn. rewrite !app_nil_r. by destruct w.
  - cbn [for_of]. unfold bind at 1. rewrite convertSize_eq. cbv zeta.
    set (r := sharp _ _ _ _ _).
    set (c := mkCall _ _ _ _ r).
    assert (Hc : call_for (filename, sz) c) by done.
    assert (Hv : call_result c =
                 sharp (fs w) (call_input c) (call_options c)
                   (call_quality c) (call_output c)) by done.
    destruct r as [out|err] eqn:Hr.
    + edestruct IH as (calls & -> & HF & HV).
      exists (c :: calls). cbn [fs console sharp_calls map] in *.
      split; [|split; [by constructor|]].
      * rewrite <- !app_assoc. cbn [render_calls].
        unfold render_call at 1. subst c. cbn [call_result].
        cbn [app apply_calls count_calls fold_left]. reflexivity.
      * split; [exact Hv|]. subst c. exact HV.
    + edestruct IH as (calls & -> & HF & HV).
      exists (c :: calls). cbn [fs console sharp_calls map] in *.
      split; [|split; [by constructor|]].
      * rewrite <- !app_assoc. cbn [render_calls].
        unfold render_call at 1. subst c. cbn [call_result call_input].
        cbn [app apply_calls count_calls fold_left]. reflexivity.
      * split; [exact Hv|]. subst c. exact HV.
Qed.

(** One file: the event is decided by the check of line 77 on the
    filesystem as it is when the file's turn comes. *)
Lemma convertFile_event tier filename t w :
  ∃ ev,
    convertFile sharp tier filename t w
    = (mkWorld (apply_calls (event_calls ev) (fs w))
         (console w ++ render_event tier ev)
         (sharp_calls w ++ event_calls ev),
       Normal (count_calls (event_calls ev) t))
    ∧ event_file ev = filename
    ∧ event_found ev = fs_exists (fs w) (path_join inputDir filename)
    ∧ event_ok tier ev
    ∧ valid_trace sharp (fs w) (event_calls ev).
Proof.
  destruct (fs_exists (fs w) (path_join inputDir filename)) eqn:Hex.
  - unfold convertFile. cbv zeta. unfold bind at 1, existsSync.
    rewrite Hex. cbn [negb]. unfold bind at 1.
    rewrite getFileSize_eq, log_then.
    edestruct (convertSizes_events filename (sizes tier))
      as (calls & -> & HF & HV).
    cbn [fs console sharp_calls] in *.
    eexists (Processed filename _ calls).
    cbn [event_calls render_event event_file event_found].
    rewrite <- app_assoc. done.
  - exists (Skipped filename). rewrite (convertFile_missing _ _ _ _ _ Hex).
    cbn. rewrite app_nil_r. split; [done|]. split; [done|].
    split; [done|]. split; [constructor|done].
Qed.

Lemma convertFiles_events tier fls : ∀ w t,
  ∃ evs,
    for_of fls (convertFile sharp tier) t w
    = (mkWorld (apply_calls (events_calls evs) (fs w))
         (console w ++ render_events tier evs)
         (sharp_calls w ++ events_calls evs),
       Normal (count_calls (events_calls evs) t))
    ∧ map event_file evs = fls
    ∧ Forall (event_ok tier) evs
    ∧ valid_trace sharp (fs w) (events_calls evs).
Proof.
  induction fls as [|f fls IH]; intros w t.
  - exists []. cbn. rewrite !app_nil_r. split; [by destruct w|done].
  - cbn [for_of]. unfold bind at 1.
    destruct (convertFile_event tier f t w)
      as (ev & -> & Hfile & _ & Hok & HV).
    edestruct IH as (evs & -> & Hfiles & Hoks & HVs).
    cbn [fs console sharp_calls] in *.
    exists (ev :: evs).
    unfold events_calls, render_events. cbn [flat_map map].
    rewrite apply_calls_app, count_calls_app, !app_assoc.
    split; [done|]. split; [by rewrite Hfile, Hfiles|].
    split; [by constructor|]. by apply valid_trace_app.
Qed.

(** The whole traversal. *)
Lemma convertAll_events w :
  ∃ e1 e2 e3,
    convertAll sharp w
    = (mkWorld (apply_calls (all_calls e1 e2 e3) (fs w))
         (console w ++ traversal_console e1 e2 e3)
         (sharp_calls w ++ all_calls e1 e2 e3),
       Normal (count_calls (all_calls e1 e2 e3) (mkTally 0 0)))
    ∧ tier_events (large config) e1
    ∧ tier_events (product config) e2
    ∧ tier_events (review config) e3
    ∧ valid_trace sharp (fs w) (all_calls e1 e2 e3).
Proof.
  unfold convertAll, convertTier. rewrite !log_then.
  cbn [fs console sharp_calls].
  edestruct (convertFiles_events (large config) (files (large config)))
    as (e1 & E1 & F1 & O1 & V1).
  unfold bind at 1. rewrite E1, log_then. cbn [fs console sharp_calls].
  edestruct (convertFiles_events (product config) (files (product config)))
    as (e2 & E2 & F2 & O2 & V2).
  unfold bind at 1. rewrite E2, log_then. cbn [fs console sharp_calls].
  edestruct (convertFiles_events (review config) (files (review config)))
    as (e3 & E3 & F3 & O3 & V3).
  rewrite E3. cbn [fs console sharp_calls] in *.
  exists e1, e2, e3. unfold all_calls, traversal_console, tier_events.
  rewrite !apply_calls_app, !count_calls_app, !valid_trace_app.
  rewrite <- !app_assoc. cbn [app]. done.
Qed.

(** The calls of a tier's events: one per size-spec for each processed
    file. *)
Lemma events_calls_length tier evs :
  Forall (event_ok tier) evs →
  length (events_calls evs)
  = (length (sizes tier) * processed_count evs)%nat.
Proof.
  unfold events_calls, processed_count.
  induction 1 as [|ev evs Hok _ IH]; [cbn; lia|].
  cbn [flat_map]. rewrite length_app, IH, filter_cons.
  unfold event_ok in Hok. apply Forall2_length in Hok.
  destruct (event_found ev); cbn [decide_rel length] in *.
  - rewrite length_map in Hok. rewrite decide_True by done.
    cbn [length]. lia.
  - rewrite decide_False by done. lia.
Qed.

(** Each call of a valid trace was answered on the filesystem as the
    calls before it left it. *)
Lemma valid_trace_lookup delta : ∀ m i c,
  valid_trace sharp m delta → delta !! i = Some c →
  call_result c
  = sharp (apply_calls (take i delta) m) (call_input c) (call_options c)
      (call_quality c) (call_output c).
Proof.
  induction delta as [|d delta IH]; intros m i c HV Hi; [done|].
  destruct HV as [Hd HV]. destruct i as [|i].
  - cbn in Hi. by simplify_eq.
  - cbn in Hi. cbn [take].
    change (apply_calls (d :: take i delta) m)
      with (apply_calls (take i delta) (apply_call m d)).
    by apply IH.
Qed.

End Events.

(** ** Properties of the script *)

(** C1, as the script has it: [processImages] returns no value.  The
    final tally of the traversal is reported on the console, in the
    summary lines printed right after the traversal, whether or not the
    size summary that follows completes. *)
Theorem tally_is_reported (sharp : Codec) (w : World) :
  ∃ wt t w1 r post,
    convertAll sharp w = (wt, Normal t)
    ∧ processImages sharp w = (w1, r)
    ∧ (r = Normal tt ∨ ∃ e, r = Throw e)
    ∧ console w1 =
      console wt
      ++ [LogRule; LogComplete; LogSuccessCount (totalConverted t);
          LogFailedCount (totalFailed t); LogOutputDir inputDir; LogRule]
      ++ post.
Proof.
  destruct (convertAll_spec sharp w) as (delta & clog & Hall & _).
  rewrite (processImages_eq sharp w _ _ Hall).
  destruct (sizeComparison_frame
              (mkWorld (apply_calls delta (fs w))
                 ((console w ++ clog)
                  ++ summary_lines (count_calls delta (mkTally 0 0)))
                 (sharp_calls w ++ delta))) as (post & r & Hs).
  cbn [fs console sharp_calls] in Hs.
  eexists _, _, _, r, post. split; [exact Hall|]. split; [exact Hs|].
  split.
  - destruct r as [[]|e]; eauto.
  - cbn [console]. unfold summary_lines. by rewrite <- !app_assoc.
Qed.

(** C1 as stated fails: what [processImages] returns carries no tally.
    A run that converts four images and a run that converts none both
    return the same value, [undefined]; so no function of the returned
    value gives the counts of the run. *)
Lemma processImages_returns_no_tally :
  (processImages clamp_codec sample_world).2 = Normal tt
  ∧ (convertAll clamp_codec sample_world).2 = Normal (mkTally 4 0)
  ∧ (processImages clamp_codec bare_world).2 = Normal tt
  ∧ (convertAll clamp_codec bare_world).2 = Normal (mkTally 0 0)
  ∧ ¬ ∃ extract : Completion unit → Tally,
        ∀ sharp w wt t,
          convertAll sharp w = (wt, Normal t) →
          extract (processImages sharp w).2 = t.
Proof.
  assert (P1 : (processImages clamp_codec sample_world).2 = Normal tt)
    by (vm_compute; reflexivity).
  assert (T1 : convertAll clamp_codec sample_world
               = ((convertAll clamp_codec sample_world).1,
                  Normal (mkTally 4 0)))
    by (vm_compute; reflexivity).
  assert (P2 : (processImages clamp_codec bare_world).2 = Normal tt)
    by (vm_compute; reflexivity).
  assert (T2 : convertAll clamp_codec bare_world
               = ((convertAll clamp_codec bare_world).1,
                  Normal (mkTally 0 0)))
    by (vm_compute; reflexivity).
  split; [exact P1|]. split; [by rewrite T1|].
  split; [exact P2|]. split; [by rewrite T2|].
  intros [extract H].
  pose proof (H clamp_codec sample_world _ _ T1) as H1.
  pose proof (H clamp_codec bare_world _ _ T2) as H2.
  rewrite P1 in H1. rewrite P2 in H2. congruence.
Qed.


(** C3: a configured filename whose source does not exist is skipped.
    Processing it emits the skip notice and nothing else: the filesystem
    and the trace of codec calls are unchanged, the tally is returned as it
    was, and the loop goes on with the next filename. *)
Theorem missing_source_skipped (sharp : Codec) (tier : Tier)
    (filename : string) (rest : list string) (t : Tally) (w : World) :
  fs_exists (fs w) (path_join inputDir filename) = false →
  (convertFile sharp tier filename t w =
     (mkWorld (fs w) (console w ++ [LogSkipping filename]) (sharp_calls w),
      Normal t))
  ∧ (for_of (filename :: rest) (convertFile sharp tier) t w =
     for_of rest (convertFile sharp tier) t
       (mkWorld (fs w) (console w ++ [LogSkipping filename]) (sharp_calls w))).
Proof.
  intros H. split.
  - by apply convertFile_missing.
  - cbn [for_of]. unfold bind. by rewrite convertFile_missing.
Qed.

Lemma missing_source_skipped_witness :
  fs_exists (fs sample_world) (path_join inputDir "019.png") = false
  ∧ convertFile clamp_codec (large config) "019.png" (mkTally 4 0)
      sample_world =
    (mkWorld sample_fs [LogSkipping "019.png"] [], Normal (mkTally 4 0)).
Proof.
  split; [vm_compute; reflexivity|].
  apply (missing_source_skipped clamp_codec (large config) "019.png" []
           (mkTally 4 0) sample_world).
  vm_compute; reflexivity.
Defined.

(** C4: a pair whose codec call is rejected is counted as failed, with the
    error's message and the failure logged, and nothing is aborted: the
    conversion of the pair completes normally, and a whole traversal always
    completes normally, with an event for every configured file of every
    tier, in table order, and, for each file that is processed, a call for
    every size-spec of its tier, whatever the outcomes of the calls; each
    call is counted once, as converted or as failed. *)
Theorem codec_failure_is_local (sharp : Codec) (filename inputPath : string)
    (sz : SizeSpec) (t : Tally) (w : World) (err : Error) :
  sharp (fs w) inputPath (mkResize (width sz) None true FitInside)
    (quality sz) (path_join inputDir (outputNameOf filename sz))
  = Rejected err →
  convertSize sharp filename inputPath sz t w =
    (mkWorld (fs w)
       (console w ++ [ErrConverting inputPath (message err);
                      LogFailed (outputNameOf filename sz)])
       (sharp_calls w
        ++ [mkCall inputPath (mkResize (width sz) None true FitInside)
              (quality sz) (path_join inputDir (outputNameOf filename sz))
              (Rejected err)]),
     Normal (mkTally (totalConverted t) (S (totalFailed t))))
  ∧ ∀ w0, ∃ wt e1 e2 e3,
      convertAll sharp w0
      = (wt, Normal (count_calls (all_calls e1 e2 e3) (mkTally 0 0)))
      ∧ sharp_calls wt = sharp_calls w0 ++ all_calls e1 e2 e3
      ∧ console wt = console w0 ++ traversal_console e1 e2 e3
      ∧ tier_events (large config) e1
      ∧ tier_events (product config) e2
      ∧ tier_events (review config) e3.
Proof.
  intros Hrej. split.
  - rewrite convertSize_eq. cbv zeta. by rewrite Hrej.
  - intros w0.
    destruct (convertAll_events sharp w0)
      as (e1 & e2 & e3 & -> & T1 & T2 & T3 & _).
    by eexists _, e1, e2, e3.
Qed.

Lemma codec_failure_is_local_witness :
  convertSize failing_codec "004.png" "images/blanche/004.png"
    (mkSize "small" 640 75) (mkTally 2 1) sample_world =
  (mkWorld sample_fs
     [ErrConverting "images/blanche/004.png"
        "Input file contains unsupported image format";
      LogFailed "004-small.webp"]
     [mkCall "images/blanche/004.png" (mkResize 640 None true FitInside) 75
        "images/blanche/004-small.webp"
        (Rejected (mkError "Input file contains unsupported image format"))],
   Normal (mkTally 2 2)).
Proof.
  apply (codec_failure_is_local failing_codec "004.png"
           "images/blanche/004.png" (mkSize "small" 640 75) (mkTally 2 1)
           sample_world
           (mkError "Input file contains unsupported image format")).
  reflexivity.
Defined.



(** C6, as the script has it: the traversal of the tiers never throws,
    however many conversions fail or are skipped, and the exit status is 0
    exactly when the whole of [processImages] completes, that is when the
    size summary after the traversal can be computed.  The status is 1
    exactly when an error escapes [processImages], and the fatal error is
    then the last line reported before the exit. *)
Theorem exit_status (sharp : Codec) (w : World) :
  ∃ wt t,
    convertAll sharp w = (wt, Normal t)
    ∧ ((main sharp w).2 = 0 ↔ summary_readable (fs wt))
    ∧ ((main sharp w).2 = 0 ↔ ∃ w', processImages sharp w = (w', Normal tt))
    ∧ ((main sharp w).2 ≠ 0 ↔ ∃ w' e, processImages sharp w = (w', Throw e))
    ∧ (∀ w' e, processImages sharp w = (w', Throw e) →
         main sharp w =
         (mkWorld (fs w') (console w' ++ [ErrFatal e]) (sharp_calls w'), 1)).
Proof.
  destruct (convertAll_spec sharp w) as (delta & clog & Hall & _).
  eexists _, _. split; [exact Hall|].
  pose proof (processImages_eq sharp w _ _ Hall) as Hp.
  pose proof (sizeComparison_normal_iff
                (mkWorld (apply_calls delta (fs w))
                   ((console w ++ clog)
                    ++ summary_lines (count_calls delta (mkTally 0 0)))
                   (sharp_calls w ++ delta))) as Hiff.
  cbn [fs console sharp_calls] in Hp, Hiff. rewrite <- Hp in Hiff.
  cbn [fs]. rewrite <- Hiff. clear Hiff Hp Hall.
  unfold main.
  destruct (processImages sharp w) as [w1 [[]|e]]; cbn.
  - split; [split; eauto|]. split; [split; eauto|]. split.
    + split; [done|]. by intros (? & ? & ?).
    + intros; simplify_eq.
  - split; [split; [done|by intros (? & ?)]|].
    split; [split; [done|by intros (? & ?)]|]. split.
    + split; [eauto|done].
    + intros; simplify_eq; done.
Qed.

(** C6 as stated fails where the input directory does not exist: the
    traversal completes, every file being skipped, and the process exits
    with status 1. *)
Lemma exit_status_counterexample :
  (∃ wt t, convertAll clamp_codec empty_world = (wt, Normal t)
           ∧ sharp_calls wt = [])
  ∧ (main clamp_codec empty_world).2 = 1.
Proof.
  split; [|vm_compute; reflexivity].
  eexists _, _. vm_compute. split; reflexivity.
Qed.

(** C7: when the run completes, the total reported is the sum of the
    sizes of all the [.webp] entries the input directory holds at that
    moment, each counted once and each readable; the entries that were
    there before the run are among them.  It is reported with the fixed
    153 MB estimate and the savings computed from the two. *)
Theorem size_summary_covers_directory (sharp : Codec) (w w1 : World) :
  processImages sharp w = (w1, Normal tt) →
  (∃ pre,
     console w1 =
     pre ++ [LogTotalWebp (total_size (fs w1) (webp_entries (fs w1)));
             LogOriginalEstimate 153;
             LogSavings
               (savings (total_size (fs w1) (webp_entries (fs w1))))])
  ∧ (∀ total,
       savings total
       = ((1 - inject_Z total / inject_Z (153 * 1024 * 1024)) * 100)%Q)
  ∧ (∀ name,
       name ∈ webp_entries (fs w1) ↔
       is_Some (fs w1 !! ("images/blanche/" +:+ name))
       ∧ name ≠ "" ∧ has_slash name = false
       ∧ js_endsWith name ".webp" = true)
  ∧ NoDup (webp_entries (fs w1))
  ∧ (∀ name,
       name ∈ webp_entries (fs w1) →
       ∃ node sz,
         fs w1 !! ("images/blanche/" +:+ name) = Some node
         ∧ node_size node = Some sz
         ∧ entry_size (fs w1) name = sz)
  ∧ (∀ name, name ∈ webp_entries (fs w) → name ∈ webp_entries (fs w1)).
Proof.
  intros Hrun.
  destruct (convertAll_spec sharp w) as (delta & clog & Hall & _).
  rewrite (processImages_eq sharp w _ _ Hall) in Hrun.
  apply sizeComparison_normal in Hrun as [-> HF].
  cbn [fs console sharp_calls] in *.
  assert (Hchar : ∀ (m : FS) name,
            name ∈ webp_entries m ↔
            is_Some (m !! ("images/blanche/" +:+ name))
            ∧ name ≠ "" ∧ has_slash name = false
            ∧ js_endsWith name ".webp" = true).
  { intros m name. unfold webp_entries.
    rewrite list_elem_of_filter, elem_of_fs_children.
    change (path_normalize inputDir +:+ "/" +:+ name)
      with ("images/blanche/" +:+ name).
    tauto. }
  split; [eauto|]. split; [done|]. split; [apply Hchar|].
  split; [apply NoDup_filter, NoDup_fs_children|]. split.
  - intros name Hname.
    rewrite Forall_forall in HF. specialize (HF name Hname).
    apply Hchar in Hname as (_ & Hne & Hsl & Hweb).
    destruct (webp_name_plain name Hweb) as [Hd Hdd].
    unfold entry_size. unfold fs_stat_size, fs_lookup in *.
    rewrite (path_join_child name Hsl Hne Hd Hdd) in *.
    destruct (apply_calls delta (fs w) !! ("images/blanche/" +:+ name))
      as [node|]; [|by destruct HF].
    exists node. destruct node as [f|sz|]; cbn; eauto.
    by destruct HF.
  - intros name. rewrite !Hchar. intros (Hsome & ? & ? & ?).
    split; [|done]. by apply apply_calls_is_Some.
Qed.

Lemma size_summary_covers_directory_witness :
  processImages clamp_codec sample_world
  = ((processImages clamp_codec sample_world).1, Normal tt)
  ∧ ∀ name,
      name ∈ webp_entries (fs sample_world) →
      name ∈ webp_entries (fs (processImages clamp_codec sample_world).1).
Proof.
  assert (H : processImages clamp_codec sample_world
              = ((processImages clamp_codec sample_world).1, Normal tt))
    by (vm_compute; reflexivity).
  split; [exact H|].
  apply (size_summary_covers_directory clamp_codec sample_world _ H).
Defined.

(** C8: under the codec's contract, a successful conversion writes an
    image that is no wider than the requested width and no wider than the
    source; and over a whole traversal every call that succeeds is the
    call of a configured pair and produced an image no wider than the
    width of its size-spec and no wider than its source, the source being
    the entry at the input path on the filesystem the codec answered
    on. *)
Theorem no_upscaling (sharp : Codec) (inputPath outputPath : string)
    (wd q : Z) (w w1 : World) :
  never_upscales sharp →
  convertImage sharp inputPath outputPath wd q w = (w1, Normal true) →
  (∃ src out,
     fs_lookup (fs w) inputPath = Some (Regular src)
     ∧ fs_lookup (fs w1) outputPath = Some (Regular out)
     ∧ img_width out ≤ wd
     ∧ img_width out ≤ img_width src)
  ∧ ∀ w0, ∃ wt t delta,
      convertAll sharp w0 = (wt, Normal t)
      ∧ sharp_calls wt = sharp_calls w0 ++ delta
      ∧ ∀ c out,
          c ∈ delta → call_result c = Encoded out →
          ∃ pr m src,
            pr ∈ config_pairs ∧ call_for pr c
            ∧ call_result c
              = sharp m (call_input c) (call_options c) (call_quality c)
                  (call_output c)
            ∧ fs_lookup m (call_input c) = Some (Regular src)
            ∧ img_width out ≤ width pr.2
            ∧ img_width out ≤ img_width src.
Proof.
  intros Hcontract Hrun. split.
  - rewrite convertImage_eq in Hrun. cbv zeta in Hrun.
    destruct (sharp (fs w) inputPath _ q outputPath) as [out|err] eqn:Hs;
      [|done].
    injection Hrun as <-.
    destruct (Hcontract _ _ _ _ _ _ Hs eq_refl eq_refl)
      as (src & Hsrc & Hw1 & Hw2).
    exists src, out. cbn [fs]. split; [done|]. split; [|done].
    unfold fs_lookup, fs_write. by rewrite lookup_insert_eq.
  - intros w0.
    destruct (convertAll_spec sharp w0)
      as (delta & clog & -> & HF & _ & _ & HV).
    eexists _, _, delta. split; [reflexivity|]. split; [done|].
    intros c out Hc Hout. apply list_elem_of_lookup in Hc as [i Hi].
    destruct (Forall2_lookup_r _ _ _ _ _ HF Hi) as (pr & Hi' & Hcall).
    assert (Hin : pr ∈ attempted_all (fs w0))
      by (eapply list_elem_of_lookup_2; eauto).
    apply attempted_all_in in Hin as [Hcfg _].
    pose proof (valid_trace_lookup sharp delta (fs w0) i c HV Hi) as Hres.
    pose proof Hres as Hres'. rewrite Hout in Hres'. symmetry in Hres'.
    pose proof Hcall as (_ & Hopt & _ & _).
    destruct (Hcontract _ _ _ _ _ _ Hres') as (src & Hsrc & Hw1 & Hw2).
    { by rewrite Hopt. }
    { by rewrite Hopt. }
    exists pr, (apply_calls (take i delta) (fs w0)), src.
    split; [done|]. split; [done|]. split; [done|]. split; [done|].
    rewrite Hopt in Hw1. cbn in Hw1. done.
Qed.

Lemma clamp_codec_never_upscales : never_upscales clamp_codec.
Proof.
  intros m inputPath opts q outputPath out Hs _ _.
  unfold clamp_codec in Hs.
  destruct (fs_lookup m inputPath) as [[src| |]|]; try done.
  injection Hs as <-. exists src. cbn. split; [done|]. lia.
Qed.

Lemma no_upscaling_witness :
  ∃ src out,
    fs_lookup sample_fs "images/blanche/004.png" = Some (Regular src)
    ∧ fs_lookup
        (fs (convertImage clamp_codec "images/blanche/004.png"
               "images/blanche/004-large.webp" 1920 80 sample_world).1)
        "images/blanche/004-large.webp"
      = Some (Regular out)
    ∧ img_width out ≤ 1920
    ∧ img_width out ≤ img_width src.
Proof.
  apply (no_upscaling clamp_codec "images/blanche/004.png"
           "images/blanche/004-large.webp" 1920 80 sample_world
           (convertImage clamp_codec "images/blanche/004.png"
              "images/blanche/004-large.webp" 1920 80 sample_world).1).
  - exact clamp_codec_never_upscales.
  - vm_compute. reflexivity.
Defined.





(** C10: a single conversion never lets an exception out.  For every
    input [convertImage] completes normally: with [true] when the codec
    resolved and the output was written, with [false] when the codec
    rejected, the error's message having been logged.  Likewise
    [getFileSize] completes normally, with the placeholder ['N/A'] when
    the size cannot be read. *)
Theorem convertImage_getFileSize_total (sharp : Codec)
    (inputPath outputPath : string) (wd q : Z) (p : string) (w : World) :
  (∃ w' b,
     convertImage sharp inputPath outputPath wd q w = (w', Normal b)
     ∧ (b = true ↔
        ∃ out, sharp (fs w) inputPath (mkResize wd None true FitInside) q
                 outputPath = Encoded out)
     ∧ (b = false ↔
        ∃ err, sharp (fs w) inputPath (mkResize wd None true FitInside) q
                 outputPath = Rejected err
               ∧ fs w' = fs w
               ∧ console w' =
                 console w ++ [ErrConverting inputPath (message err)]))
  ∧ (∃ r,
       getFileSize p w = (w, Normal r)
       ∧ (fs_stat_size (fs w) p = None → r = SizeNA)
       ∧ (∀ sz, fs_stat_size (fs w) p = Some sz → r = SizeMB sz)).
Proof.
  split.
  - rewrite convertImage_eq. cbv zeta.
    destruct (sharp (fs w) inputPath _ q outputPath) as [out|err].
    + eexists _, true. split; [reflexivity|]. split.
      * split; [eauto|done].
      * split; [done|]. by intros (err & ? & _).
    + eexists _, false. split; [reflexivity|]. split.
      * split; [done|]. by intros (out & ?).
      * split; [|done]. intros _. by exists err.
  - rewrite getFileSize_eq. eexists. split; [reflexivity|].
    split.
    + by intros ->.
    + by intros sz ->.
Qed.

(** ** What a run does to the filesystem *)

Section Writes.

Variable sharp : Codec.

(** The filesystem at the end of the process is the one the traversal
    left. *)
Lemma main_fs w wt t :
  convertAll sharp w = (wt, Normal t) →
  fs (main sharp w).1 = fs wt ∧ sharp_calls (main sharp w).1 = sharp_calls wt.
Proof.
  intros Hall. unfold main.
  rewrite (processImages_eq sharp w wt t Hall).
  destruct (sizeComparison_frame
              (mkWorld (fs wt) (console wt ++ summary_lines t)
                 (sharp_calls wt))) as (post & r & ->).
  by destruct r.
Qed.

(** An entry of the filesystem after some writes is an entry that was
    there or a regular file that was written. *)
Lemma apply_calls_lookup_cases delta : ∀ (m : FS) k node,
  apply_calls delta m !! k = Some node →
  m !! k = Some node
  ∨ ∃ c out, c ∈ delta ∧ call_key c = k ∧ call_result c = Encoded out
             ∧ node = Regular out.
Proof.
  induction delta as [|c delta IH]; intros m k node Hk; [by left|].
  change (apply_calls (c :: delta) m)
    with (apply_calls delta (apply_call m c)) in Hk.
  apply IH in Hk as [Hk|(c' & out & Hc' & ? & ? & ?)].
  - unfold apply_call in Hk.
    destruct (call_result c) as [out|err] eqn:Hr; [|by left].
    unfold fs_write in Hk. rewrite lookup_insert in Hk.
    case_decide as Hkey; [|by left].
    right. exists c, out. simplify_eq. split; [by left|done].
  - right. exists c', out. split; [by right|done].
Qed.

Lemma apply_calls_lookup_ne delta (m : FS) k :
  Forall (fun c => call_key c ≠ k) delta →
  apply_calls delta m !! k = m !! k.
Proof.
  intros HF. symmetry.
  apply (agree_on_apply_calls [k] delta m).
  - eapply Forall_impl; [exact HF|].
    intros c Hne Hin. by apply list_elem_of_singleton in Hin.
  - by apply list_elem_of_singleton.
Qed.

(** Calls that all reject write nothing. *)
Lemma apply_calls_rejected delta (m : FS) :
  Forall (fun c => ∃ err, call_result c = Rejected err) delta →
  apply_calls delta m = m.
Proof.
  revert m. induction delta as [|c delta IH]; intros m HF; [done|].
  inversion HF as [|? ? [err Hc] HF']; subst.
  change (apply_calls (c :: delta) m)
    with (apply_calls delta (apply_call m c)).
  unfold apply_call. rewrite Hc. by apply IH.
Qed.

(** The key of the call made for a pair is the output key of the pair. *)
Lemma call_for_key pr c : call_for pr c → call_key c = output_key pr.
Proof. intros (_ & _ & _ & Hout). unfold call_key. by rewrite Hout. Qed.

Lemma calls_of_pairs pairs delta c :
  Forall2 call_for pairs delta → c ∈ delta →
  ∃ pr, pr ∈ pairs ∧ call_for pr c.
Proof.
  intros HF Hc. apply list_elem_of_lookup in Hc as [i Hi].
  destruct (Forall2_lookup_r _ _ _ _ _ HF Hi) as (pr & Hi' & Hcall).
  exists pr. split; [|done]. eapply list_elem_of_lookup_2; eauto.
Qed.

(** In the configured table the output keys are pairwise distinct, none
    is the input directory, and each is a plain [.webp] name right under
    the input directory. *)
Lemma config_output_keys_NoDup : NoDup (output_key <$> config_pairs).
Proof.
  apply (bool_decide_unpack (NoDup (output_key <$> config_pairs))).
  vm_compute. exact I.
Qed.

Lemma config_output_names :
  Forall (fun pr : string * SizeSpec =>
            output_key pr = "images/blanche/" +:+ outputNameOf pr.1 pr.2
            ∧ has_slash (outputNameOf pr.1 pr.2) = false
            ∧ js_endsWith (outputNameOf pr.1 pr.2) ".webp" = true
            ∧ output_key pr ∈ all_output_keys
            ∧ output_key pr ≠ inputDir_key)
    config_pairs.
Proof.
  apply (bool_decide_unpack
           (Forall (fun pr : string * SizeSpec =>
                      output_key pr
                      = "images/blanche/" +:+ outputNameOf pr.1 pr.2
                      ∧ has_slash (outputNameOf pr.1 pr.2) = false
                      ∧ js_endsWith (outputNameOf pr.1 pr.2) ".webp" = true
                      ∧ output_key pr ∈ all_output_keys
                      ∧ output_key pr ≠ inputDir_key)
              config_pairs)).
  vm_compute. exact I.
Qed.

Lemma attempted_pairs_sublist m fls szs :
  sublist (attempted_pairs m fls szs)
    (flat_map (fun f => map (fun sz => (f, sz)) szs) fls).
Proof.
  unfold attempted_pairs. induction fls as [|f fls IH]; [done|].
  cbn [flat_map]. apply sublist_app; [|exact IH].
  destruct (fs_exists m (path_join inputDir f)); [done|].
  apply sublist_nil_l.
Qed.

Lemma attempted_all_sublist m : sublist (attempted_all m) config_pairs.
Proof.
  unfold attempted_all, attempted, config_pairs, tier_pairs.
  apply sublist_app; [|apply sublist_app]; apply attempted_pairs_sublist.
Qed.

Lemma attempted_all_NoDup m : NoDup (output_key <$> attempted_all m).
Proof.
  apply (sublist_NoDup _ (output_key <$> config_pairs)).
  - exact config_output_keys_NoDup.
  - apply fmap_sublist, attempted_all_sublist.
Qed.

(** When the pairs have distinct output keys, what a resolved call wrote
    is still there after the later calls. *)
Lemma last_write_stays pairs : ∀ delta (m : FS) c out,
  Forall2 call_for pairs delta →
  NoDup (output_key <$> pairs) →
  c ∈ delta → call_result c = Encoded out →
  apply_calls delta m !! call_key c = Some (Regular out).
Proof.
  induction pairs as [|pr pairs IH]; intros delta m c out HF HND Hc Hr.
  - inversion HF; subst. by apply elem_of_nil in Hc.
  - inversion HF as [|? d ? delta' Hd HF']; subst.
    rewrite fmap_cons in HND. apply NoDup_cons in HND as [Hnotin HND].
    change (apply_calls (d :: delta') m)
      with (apply_calls delta' (apply_call m d)).
    apply elem_of_cons in Hc as [->|Hc]; [|by apply IH].
    rewrite apply_calls_lookup_ne.
    + unfold apply_call. rewrite Hr. unfold fs_write, call_key.
      by rewrite lookup_insert_eq.
    + apply Forall_forall. intros c' Hc' Heq.
      destruct (calls_of_pairs _ _ _ HF' Hc') as (pr' & Hpr' & Hcall').
      apply Hnotin. rewrite <- (call_for_key _ _ Hd), <- Heq.
      rewrite (call_for_key _ _ Hcall').
      apply list_elem_of_fmap. by exists pr'.
Qed.

End Writes.

(** ** Further properties of a run *)

Lemma elem_of_webp_entries (m : FS) name :
  name ∈ webp_entries m ↔
  is_Some (m !! ("images/blanche/" +:+ name))
  ∧ name ≠ "" ∧ has_slash name = false
  ∧ js_endsWith name ".webp" = true.
Proof.
  unfold webp_entries.
  rewrite list_elem_of_filter, elem_of_fs_children.
  change (path_normalize inputDir +:+ "/" +:+ name)
    with ("images/blanche/" +:+ name).
  tauto.
Qed.

Lemma valid_trace_rejected sharp delta : ∀ m,
  (∀ m inputPath opts q outputPath,
     ∃ err, sharp m inputPath opts q outputPath = Rejected err) →
  valid_trace sharp m delta →
  Forall (fun c => ∃ err, call_result c = Rejected err) delta.
Proof.
  induction delta as [|c delta IH]; intros m Hrej HV; [constructor|].
  destruct HV as [Hc HV]. constructor; [|by eapply IH].
  rewrite Hc. apply Hrej.
Qed.

Lemma count_calls_rejected delta : ∀ t,
  Forall (fun c => ∃ err, call_result c = Rejected err) delta →
  count_calls delta t
  = mkTally (totalConverted t) (totalFailed t + length delta).
Proof.
  induction delta as [|c delta IH]; intros t HF.
  - cbn. rewrite Nat.add_0_r. by destruct t.
  - inversion HF as [|? ? [err Hc] HF']; subst.
    change (count_calls (c :: delta) t)
      with (count_calls delta (count_call t c)).
    rewrite (IH _ HF'). unfold count_call. rewrite Hc. cbn.
    f_equal. lia.
Qed.

(** The keys the calls made for a list of pairs write at are the output
    keys of the pairs. *)
Lemma call_keys_of_pairs pairs delta :
  Forall2 call_for pairs delta →
  call_key <$> delta = output_key <$> pairs.
Proof.
  induction 1 as [|pr c pairs delta Hc _ IH]; [done|].
  by rewrite !fmap_cons, IH, (call_for_key _ _ Hc).
Qed.

(** X1: every codec call of a run is the call of a configured pair and is
    asked to write at the output path of that pair: a [.webp] name right
    under the input directory, which is not the path of a source, not the
    path the call reads and not the input directory itself; and a run
    removes no entry. *)
Theorem run_writes_outputs_only (sharp : Codec) (w : World) :
  ∃ delta,
    sharp_calls (main sharp w).1 = sharp_calls w ++ delta
    ∧ Forall (fun c =>
                ∃ pr,
                  pr ∈ config_pairs
                  ∧ call_for pr c
                  ∧ call_key c
                    = "images/blanche/" +:+ outputNameOf pr.1 pr.2
                  ∧ has_slash (outputNameOf pr.1 pr.2) = false
                  ∧ js_endsWith (outputNameOf pr.1 pr.2) ".webp" = true
                  ∧ (call_key c ∉ all_source_keys)
                  ∧ call_key c ≠ path_normalize (call_input c)
                  ∧ call_key c ≠ inputDir_key) delta
    ∧ ∀ k, is_Some (fs w !! k) → is_Some (fs (main sharp w).1 !! k).
Proof.
  destruct (convertAll_spec sharp w)
    as (delta & clog & Hall & HF & _ & Hns & _).
  destruct (main_fs sharp w _ _ Hall) as [-> ->]. cbn [fs sharp_calls].
  exists delta. split; [done|]. split.
  - apply Forall_forall. intros c Hc.
    destruct (calls_of_pairs _ _ _ HF Hc) as (pr & Hpr & Hcall).
    apply attempted_all_in in Hpr as [Hcfg _].
    pose proof config_output_names as Hnames.
    rewrite Forall_forall in Hnames.
    destruct (Hnames _ Hcfg) as (Hkey & Hsl & Hweb & _ & Hdir).
    pose proof config_pairs_sources as Hsrc.
    rewrite Forall_forall in Hsrc. specialize (Hsrc _ Hcfg).
    rewrite Forall_forall in Hns. specialize (Hns _ Hc).
    fold (call_key c) in Hns.
    pose proof (call_for_key _ _ Hcall) as Hk.
    exists pr. split; [done|]. split; [done|].
    split; [by rewrite Hk|]. split; [done|]. split; [done|].
    split; [exact Hns|]. split; [|by rewrite Hk].
    destruct Hcall as (Hin & _). rewrite Hin.
    intros Heq. apply Hns. by rewrite Heq.
  - intros k. apply apply_calls_is_Some.
Qed.

(** X2: no two codec calls of a run are asked to write at the same
    path. *)
Theorem calls_write_distinct_paths (sharp : Codec) (w : World) :
  ∃ delta,
    sharp_calls (main sharp w).1 = sharp_calls w ++ delta
    ∧ NoDup (call_key <$> delta)
    ∧ NoDup (call_output <$> delta).
Proof.
  destruct (convertAll_spec sharp w) as (delta & clog & Hall & HF & _).
  destruct (main_fs sharp w _ _ Hall) as [_ ->]. cbn [sharp_calls].
  exists delta. split; [done|].
  assert (Hk : NoDup (call_key <$> delta)).
  { rewrite (call_keys_of_pairs _ _ HF). apply attempted_all_NoDup. }
  split; [exact Hk|].
  change (call_key <$> delta)
    with ((fun c => path_normalize (call_output c)) <$> delta) in Hk.
  rewrite (list_fmap_compose call_output path_normalize) in Hk.
  by apply NoDup_fmap_1 in Hk.
Qed.

(** X3: when a run completes, every file it converted is among the
    entries whose sizes make up the total the summary prints: the output
    name of each resolved call is a [.webp] entry of the input directory
    at the end of the run. *)
Theorem outputs_are_summed (sharp : Codec) (w w1 : World) :
  processImages sharp w = (w1, Normal tt) →
  ∃ pre delta,
    console w1 =
    pre ++ [LogTotalWebp (total_size (fs w1) (webp_entries (fs w1)));
            LogOriginalEstimate 153;
            LogSavings
              (savings (total_size (fs w1) (webp_entries (fs w1))))]
    ∧ sharp_calls w1 = sharp_calls w ++ delta
    ∧ ∀ c out,
        c ∈ delta → call_result c = Encoded out →
        ∃ pr,
          pr ∈ config_pairs
          ∧ call_for pr c
          ∧ call_key c = "images/blanche/" +:+ outputNameOf pr.1 pr.2
          ∧ outputNameOf pr.1 pr.2 ∈ webp_entries (fs w1).
Proof.
  intros Hrun.
  destruct (convertAll_spec sharp w)
    as (delta & clog & Hall & HF & _).
  rewrite (processImages_eq sharp w _ _ Hall) in Hrun.
  apply sizeComparison_normal in Hrun as [-> _].
  cbn [fs console sharp_calls].
  eexists _, delta. split; [reflexivity|]. split; [done|].
  intros c out Hc Hr.
  pose proof (last_write_stays (attempted_all (fs w)) delta (fs w) c out
                HF (attempted_all_NoDup (fs w)) Hc Hr) as Hl.
  destruct (calls_of_pairs _ _ _ HF Hc) as (pr & Hpr & Hcall).
  apply attempted_all_in in Hpr as [Hcfg _].
  pose proof config_output_names as Hnames.
  rewrite Forall_forall in Hnames.
  destruct (Hnames _ Hcfg) as (Hkey & Hsl & Hweb & _).
  rewrite (call_for_key _ _ Hcall) in *.
  exists pr. repeat (split; [done|]).
  apply elem_of_webp_entries. rewrite <- Hkey, Hl.
  split; [eauto|]. split; [|done]. by intros Heq; rewrite Heq in Hweb.
Qed.

Lemma outputs_are_summed_witness :
  processImages clamp_codec sample_world
  = ((processImages clamp_codec sample_world).1, Normal tt)
  ∧ ∃ pre delta,
      console (processImages clamp_codec sample_world).1 =
      pre ++ [LogTotalWebp
                (total_size (fs (processImages clamp_codec sample_world).1)
                   (webp_entries
                      (fs (processImages clamp_codec sample_world).1)));
              LogOriginalEstimate 153;
              LogSavings
                (savings
                   (total_size
                      (fs (processImages clamp_codec sample_world).1)
                      (webp_entries
                         (fs (processImages clamp_codec sample_world).1))))]
      ∧ sharp_calls (processImages clamp_codec sample_world).1
        = sharp_calls sample_world ++ delta
      ∧ ∀ c out,
          c ∈ delta → call_result c = Encoded out →
          ∃ pr,
            pr ∈ config_pairs
            ∧ call_for pr c
            ∧ call_key c = "images/blanche/" +:+ outputNameOf pr.1 pr.2
            ∧ outputNameOf pr.1 pr.2
              ∈ webp_entries (fs (processImages clamp_codec sample_world).1).
Proof.
  assert (H : processImages clamp_codec sample_world
              = ((processImages clamp_codec sample_world).1, Normal tt))
    by (vm_compute; reflexivity).
  split; [exact H|].
  apply (outputs_are_summed clamp_codec sample_world _ H).
Defined.

(** What [statSync] reports depends on the entry at the resolved path. *)
Lemma fs_stat_size_node (m : FS) p :
  fs_stat_size m p = fs_lookup m p ≫= node_size.
Proof.
  unfold fs_stat_size. by destruct (fs_lookup m p) as [[| |]|].
Qed.

(** Writes of regular files at paths other than the input directory keep
    the size summary computable. *)
Lemma summary_readable_apply_calls delta (m : FS) :
  Forall (fun c => call_key c ≠ inputDir_key) delta →
  summary_readable m → summary_readable (apply_calls delta m).
Proof.
  intros Hdir (names & Hread & HF).
  unfold fs_readdir, fs_lookup in Hread.
  destruct (m !! path_normalize inputDir) as [[|sz|]|] eqn:Hd; try done.
  injection Hread as <-.
  exists (fs_children (apply_calls delta m) (path_normalize inputDir)).
  split.
  - unfold fs_readdir, fs_lookup.
    rewrite (apply_calls_lookup_ne delta m (path_normalize inputDir) Hdir).
    by rewrite Hd.
  - apply Forall_forall. intros n Hn.
    fold (webp_entries (apply_calls delta m)) in Hn.
    fold (webp_entries m) in HF.
    pose proof Hn as Hn'.
    apply elem_of_webp_entries in Hn' as ([node Hnode] & Hne & Hsl & Hweb).
    destruct (webp_name_plain n Hweb) as [Hd1 Hd2].
    rewrite fs_stat_size_node. unfold fs_lookup.
    rewrite (path_join_child n Hsl Hne Hd1 Hd2), Hnode. cbn.
    destruct (apply_calls_lookup_cases delta m _ _ Hnode)
      as [Hold|(c & out & _ & _ & _ & ->)]; [|by eexists].
    assert (Hin : n ∈ webp_entries m).
    { apply elem_of_webp_entries. rewrite Hold. eauto. }
    rewrite Forall_forall in HF. specialize (HF n Hin).
    rewrite fs_stat_size_node in HF. unfold fs_lookup in HF.
    by rewrite (path_join_child n Hsl Hne Hd1 Hd2), Hold in HF.
Qed.

(** X4: when the input directory can be listed and each of its [.webp]
    entries can be read before the run, the process exits with status 0,
    whatever the codec does, and the same holds at the end of the run. *)
Theorem readable_directory_exits_zero (sharp : Codec) (w : World) :
  summary_readable (fs w) →
  (main sharp w).2 = 0 ∧ summary_readable (fs (main sharp w).1).
Proof.
  intros Hread.
  destruct (convertAll_spec sharp w)
    as (delta & clog & Hall & HF & _).
  assert (Hafter : summary_readable (apply_calls delta (fs w))).
  { apply summary_readable_apply_calls; [|done].
    apply Forall_forall. intros c Hc.
    destruct (calls_of_pairs _ _ _ HF Hc) as (pr & Hpr & Hcall).
    apply attempted_all_in in Hpr as [Hcfg _].
    pose proof config_output_names as Hnames.
    rewrite Forall_forall in Hnames.
    destruct (Hnames _ Hcfg) as (_ & _ & _ & _ & Hne).
    by rewrite (call_for_key _ _ Hcall). }
  destruct (main_fs sharp w _ _ Hall) as [-> _]. cbn [fs].
  split; [|done].
  unfold main. rewrite (processImages_eq sharp w _ _ Hall).
  cbn [fs console sharp_calls].
  apply (sizeComparison_normal_iff
           (mkWorld (apply_calls delta (fs w))
              ((console w ++ clog)
               ++ summary_lines (count_calls delta (mkTally 0 0)))
              (sharp_calls w ++ delta))) in Hafter as [w1 ->].
  done.
Qed.

Lemma sample_fs_readable : summary_readable sample_fs.
Proof.
  eexists. split; [vm_compute; reflexivity|].
  repeat constructor; vm_compute; eauto.
Qed.

Lemma readable_directory_exits_zero_witness :
  (main failing_codec sample_world).2 = 0
  ∧ summary_readable (fs (main failing_codec sample_world).1).
Proof.
  apply (readable_directory_exits_zero failing_codec sample_world).
  exact sample_fs_readable.
Defined.



Example file_as_directory :
  main clamp_codec file_world
  = (mkWorld (fs file_world)
       (console (convertAll clamp_codec file_world).1
        ++ summary_lines (mkTally 0 0)
        ++ [ErrFatal
              (mkError
                 "ENOTDIR: not a directory, scandir './images/blanche'")])
       [], 1).
Proof. vm_compute. reflexivity. Qed.

(** X6: a run in which the codec rejects every call leaves the filesystem
    exactly as it was, converts nothing, and counts one failure for each
    pair whose source exists. *)
Theorem all_rejected_run (sharp : Codec) (w : World) :
  (∀ m inputPath opts q outputPath,
     ∃ err, sharp m inputPath opts q outputPath = Rejected err) →
  fs (main sharp w).1 = fs w
  ∧ ∃ wt t,
      convertAll sharp w = (wt, Normal t)
      ∧ totalConverted t = O
      ∧ totalFailed t = length (attempted_all (fs w)).
Proof.
  intros Hrej.
  destruct (convertAll_spec sharp w)
    as (delta & clog & Hall & HF & _ & _ & HV).
  pose proof (valid_trace_rejected sharp delta (fs w) Hrej HV) as Hall_rej.
  destruct (main_fs sharp w _ _ Hall) as [-> _]. cbn [fs].
  split; [by apply apply_calls_rejected|].
  eexists _, _. split; [exact Hall|].
  rewrite (count_calls_rejected delta _ Hall_rej). cbn.
  split; [done|]. symmetry. by eapply Forall2_length.
Qed.

Lemma all_rejected_run_witness :
  fs (main failing_codec sample_world).1 = fs sample_world
  ∧ ∃ wt t,
      convertAll failing_codec sample_world = (wt, Normal t)
      ∧ totalConverted t = O
      ∧ totalFailed t = length (attempted_all (fs sample_world)).
Proof.
  apply (all_rejected_run failing_codec sample_world).
  intros m inputPath opts q outputPath. eexists. reflexivity.
Defined.

(** ** Names: [replace] and [endsWith] *)

Lemma string_app_nil_r (s : string) : s +:+ "" = s.
Proof. induction s as [|a s IH]; [done|]. by rewrite string_app_cons, IH. Qed.

Lemma prefix_app (a b : string) : String.prefix a (a +:+ b) = true.
Proof.
  induction a as [|c a IH]; [by destruct b|].
  rewrite string_app_cons. cbn [String.prefix].
  by destruct (ascii_dec c c).
Qed.

Lemma prefix_true_iff (a b : string) :
  String.prefix a b = true ↔ ∃ r, b = a +:+ r.
Proof.
  split.
  - revert b. induction a as [|c a IH]; intros b Hp; [by exists b|].
    destruct b as [|d b]; [done|]. cbn [String.prefix] in Hp.
    destruct (ascii_dec c d) as [->|]; [|done].
    destruct (IH b Hp) as [r ->]. by exists r.
  - intros [r ->]. apply prefix_app.
Qed.

Lemma string_drop_app (a b : string) :
  string_drop (String.length a) (a +:+ b) = b.
Proof. induction a as [|c a IH]; [done|]. by rewrite string_app_cons. Qed.

Lemma rev_app_spec (s : string) : ∀ acc,
  String.rev_app s acc = String.rev s +:+ acc.
Proof.
  unfold String.rev. induction s as [|a s IH]; intros acc; [done|].
  cbn [String.rev_app]. rewrite (IH (String a acc)), (IH (String a "")).
  by rewrite string_app_assoc.
Qed.

Lemma rev_append (x y : string) :
  String.rev (x +:+ y) = String.rev y +:+ String.rev x.
Proof.
  unfold String.rev at 1. rewrite rev_app_app.
  by rewrite rev_app_spec.
Qed.

Lemma rev_rev (s : string) : String.rev (String.rev s) = s.
Proof.
  induction s as [|a s IH]; [done|].
  change (String.rev (String a s)) with (String.rev_app s (String a "")).
  rewrite rev_app_spec, rev_append, IH. done.
Qed.

(** [s.endsWith(suf)] holds exactly for the strings of the form
    [pre + suf]. *)
Lemma js_endsWith_iff (s suf : string) :
  js_endsWith s suf = true ↔ ∃ pre, s = pre +:+ suf.
Proof.
  unfold js_endsWith. rewrite prefix_true_iff. split.
  - intros [r Hr]. exists (String.rev r).
    rewrite <- (rev_rev s), Hr, rev_append. by rewrite rev_rev.
  - intros [pre ->]. exists (String.rev pre). apply rev_append.
Qed.

Lemma js_replace_absent pat rep (s : string) :
  js_includes pat s = false → js_replace pat rep s = s.
Proof.
  induction s as [|c s IH]; cbn [js_includes js_replace]; intros H;
    apply orb_false_iff in H as [-> H]; [done|].
  by rewrite IH.
Qed.

Lemma js_replace_first_occurrence pat rep (pre : string) : ∀ post,
  (∀ i, (i < String.length pre)%nat →
        String.prefix pat (string_drop i (pre +:+ pat +:+ post)) = false) →
  js_replace pat rep (pre +:+ pat +:+ post) = pre +:+ rep +:+ post.
Proof.
  induction pre as [|c pre IH]; intros post H.
  - change ("" +:+ pat +:+ post) with (pat +:+ post).
    change ("" +:+ rep +:+ post) with (rep +:+ post).
    destruct (pat +:+ post) as [|d s] eqn:Hs.
    + cbn [js_replace]. rewrite <- Hs at 1. rewrite prefix_app.
      rewrite <- Hs at 1. by rewrite string_drop_app.
    + cbn [js_replace]. rewrite <- Hs at 1. rewrite prefix_app.
      rewrite <- Hs at 1. by rewrite string_drop_app.
  - rewrite !string_app_cons. cbn [js_replace].
    pose proof (H O ltac:(cbn; lia)) as H0.
    cbn [string_drop] in H0. rewrite string_app_cons in H0. rewrite H0.
    f_equal. apply IH. intros i Hi.
    specialize (H (S i) ltac:(cbn; lia)).
    by rewrite string_app_cons in H.
Qed.

(** X7: the output name always ends in [.webp]; a filename that does not
    contain [.png] keeps its whole name as base; and only the first
    [.png] of a filename is dropped, wherever it stands, so whatever
    follows it stays in the base name. *)
Theorem output_name_edge_cases (f pre post : string) (sz : SizeSpec) :
  js_endsWith (outputNameOf f sz) ".webp" = true
  ∧ (js_includes ".png" f = false →
     outputNameOf f sz = f +:+ "-" +:+ suffix sz +:+ ".webp")
  ∧ ((∀ i, (i < String.length pre)%nat →
           String.prefix ".png" (string_drop i (pre +:+ ".png" +:+ post))
           = false) →
     outputNameOf (pre +:+ ".png" +:+ post) sz
     = (pre +:+ post) +:+ "-" +:+ suffix sz +:+ ".webp").
Proof.
  unfold outputNameOf. cbv zeta. split; [|split].
  - apply js_endsWith_iff.
    exists (js_replace ".png" "" f +:+ "-" +:+ suffix sz).
    by rewrite !string_app_assoc.
  - intros Habs. by rewrite js_replace_absent.
  - intros Hfirst. by rewrite js_replace_first_occurrence.
Qed.

Example output_name_double_extension :
  outputNameOf "a.png.png" (mkSize "small" 640 75) = "a.png-small.webp"
  ∧ outputNameOf "photo.jpg" (mkSize "small" 640 75)
    = "photo.jpg-small.webp"
  ∧ outputNameOf "x.pngs/y.png" (mkSize "small" 640 75)
    = "xs/y.png-small.webp".
Proof. repeat split; reflexivity. Qed.

(** X8: the size summary adds up exactly the entries right under the
    input directory whose name has the form [stem + ".webp"], the empty
    stem included, each of them once; names of any other form and entries
    further down are left out. *)
Theorem summary_takes_webp_names (w w1 : World) :
  sizeComparison w = (w1, Normal tt) →
  ∃ names,
    console w1 =
    console w ++ [LogTotalWebp (total_size (fs w) names);
                  LogOriginalEstimate 153;
                  LogSavings (savings (total_size (fs w) names))]
    ∧ NoDup names
    ∧ ∀ name,
        name ∈ names ↔
        (∃ stem, name = stem +:+ ".webp")
        ∧ has_slash name = false
        ∧ is_Some (fs w !! ("images/blanche/" +:+ name)).
Proof.
  intros Hrun. apply sizeComparison_normal in Hrun as [-> _].
  cbn [console]. exists (webp_entries (fs w)). split; [done|].
  split; [apply NoDup_filter, NoDup_fs_children|].
  intros name. rewrite elem_of_webp_entries, js_endsWith_iff. split.
  - intros (? & ? & ? & ?). done.
  - intros ([stem ->] & ? & ?). split; [done|]. split; [|eauto].
    by destruct stem.
Qed.

Lemma summary_takes_webp_names_witness :
  sizeComparison sample_world
  = ((sizeComparison sample_world).1, Normal tt)
  ∧ ∃ names,
      console (sizeComparison sample_world).1 =
      console sample_world
      ++ [LogTotalWebp (total_size (fs sample_world) names);
          LogOriginalEstimate 153;
          LogSavings (savings (total_size (fs sample_world) names))]
      ∧ NoDup names
      ∧ ∀ name,
          name ∈ names ↔
          (∃ stem, name = stem +:+ ".webp")
          ∧ has_slash name = false
          ∧ is_Some (fs sample_world !! ("images/blanche/" +:+ name)).
Proof.
  assert (H : sizeComparison sample_world
              = ((sizeComparison sample_world).1, Normal tt))
    by (vm_compute; reflexivity).
  split; [exact H|].
  apply (summary_takes_webp_names sample_world _ H).
Defined.

(** A name in upper case, a name that goes on after [.webp] and an entry
    further down are left out; the bare name [.webp] is taken. *)
Example summary_names_sample :
  webp_entries
    (<["images/blanche" := Directory 4096]>
       (<["images/blanche/a.webp" := Regular (mkFile 5 1 1)]>
          (<["images/blanche/.webp" := Regular (mkFile 7 1 1)]>
             (<["images/blanche/B.WEBP" := Regular (mkFile 11 1 1)]>
                (<["images/blanche/c.webp.bak" := Regular (mkFile 13 1 1)]>
                   (<["images/blanche/sub/d.webp"
                      := Regular (mkFile 17 1 1)]> ∅))))))
  ≡ₚ [".webp"; "a.webp"].
Proof. vm_compute. apply Permutation_refl || apply perm_swap. Qed.

(** ** Counting calls and lines *)

Lemma processed_count_le tier evs :
  tier_events tier evs → (processed_count evs ≤ length (files tier))%nat.
Proof.
  intros [Hfiles _]. rewrite <- Hfiles, length_map.
  unfold processed_count. apply length_filter.
Qed.

(** X9: a run never calls the codec more than 45 times: four times for
    each large file it processes, of which there are at most 7, three
    times for each of at most 3 product files and twice for each of at
    most 4 review files; so the two counts of the summary never add up
    to more than 45. *)
Theorem run_call_count (sharp : Codec) (w : World) :
  ∃ wt t e1 e2 e3,
    convertAll sharp w = (wt, Normal t)
    ∧ sharp_calls wt = sharp_calls w ++ all_calls e1 e2 e3
    ∧ console wt = console w ++ traversal_console e1 e2 e3
    ∧ tier_events (large config) e1
    ∧ tier_events (product config) e2
    ∧ tier_events (review config) e3
    ∧ length (all_calls e1 e2 e3)
      = (4 * processed_count e1 + 3 * processed_count e2
         + 2 * processed_count e3)%nat
    ∧ (processed_count e1 ≤ 7)%nat
    ∧ (processed_count e2 ≤ 3)%nat
    ∧ (processed_count e3 ≤ 4)%nat
    ∧ (length (all_calls e1 e2 e3) ≤ 45)%nat
    ∧ (totalConverted t + totalFailed t)%nat = length (all_calls e1 e2 e3)
    ∧ (totalConverted t + totalFailed t ≤ 45)%nat.
Proof.
  destruct (convertAll_events sharp w)
    as (e1 & e2 & e3 & -> & T1 & T2 & T3 & _).
  eexists _, _, e1, e2, e3. split; [reflexivity|].
  cbn [sharp_calls console]. split; [done|]. split; [done|].
  split; [done|]. split; [done|]. split; [done|].
  pose proof (processed_count_le _ _ T1) as P1.
  pose proof (processed_count_le _ _ T2) as P2.
  pose proof (processed_count_le _ _ T3) as P3.
  change (length (files (large config))) with 7%nat in P1.
  change (length (files (product config))) with 3%nat in P2.
  change (length (files (review config))) with 4%nat in P3.
  assert (Hlen : length (all_calls e1 e2 e3)
                 = (4 * processed_count e1 + 3 * processed_count e2
                    + 2 * processed_count e3)%nat).
  { unfold all_calls. rewrite !length_app.
    rewrite (events_calls_length (large config) e1) by apply T1.
    rewrite (events_calls_length (product config) e2) by apply T2.
    rewrite (events_calls_length (review config) e3) by apply T3.
    change (length (sizes (large config))) with 4%nat.
    change (length (sizes (product config))) with 3%nat.
    change (length (sizes (review config))) with 2%nat. lia. }
  assert (Hsum : (totalConverted (count_calls (all_calls e1 e2 e3)
                                    (mkTally 0 0))
                  + totalFailed (count_calls (all_calls e1 e2 e3)
                                   (mkTally 0 0)))%nat
                 = length (all_calls e1 e2 e3)).
  { rewrite count_calls_total. cbn. lia. }
  repeat split; try done; lia.
Qed.

Lemma count_lines_app p l1 l2 :
  count_lines p (l1 ++ l2) = (count_lines p l1 + count_lines p l2)%nat.
Proof. induction l1 as [|x l1 IH]; cbn; [done|]. rewrite IH. lia. Qed.

Section Console.

Variable sharp : Codec.

(** The lines of the inner loop against the tally. *)
Lemma convertSizes_console filename inputPath szs : ∀ w t,
  ∃ w1 t1 clog,
    for_of szs (convertSize sharp filename inputPath) t w = (w1, Normal t1)
    ∧ console w1 = console w ++ clog
    ∧ totalConverted t1
      = (totalConverted t + count_lines is_converted_line clog)%nat
    ∧ totalFailed t1 = (totalFailed t + count_lines is_failed_line clog)%nat
    ∧ count_lines is_error_line clog = count_lines is_failed_line clog
    ∧ count_lines is_unsized_success clog = O
    ∧ count_lines is_skip_line clog = O
    ∧ count_lines is_source_line clog = O.
Proof.
  induction szs as [|sz szs IH]; intros w t.
  - exists w, t, []. cbn. rewrite app_nil_r, !Nat.add_0_r. done.
  - cbn [for_of]. unfold bind at 1. rewrite convertSize_eq. cbv zeta.
    destruct (sharp (fs w) inputPath _ (quality sz) _) as [out|err].
    + edestruct IH as (w1 & t1 & clog & -> & Hc & H1 & H2 & H3 & H4 & H5 & H6).
      eexists w1, t1, (_ :: clog). split; [reflexivity|].
      cbn [console totalConverted totalFailed] in *.
      rewrite Hc, <- app_assoc. split; [done|].
      cbn. rewrite H1, H2, H3, H4, H5, H6. repeat split; lia.
    + edestruct IH as (w1 & t1 & clog & -> & Hc & H1 & H2 & H3 & H4 & H5 & H6).
      eexists w1, t1, (_ :: _ :: clog). split; [reflexivity|].
      cbn [console totalConverted totalFailed] in *.
      rewrite Hc, <- app_assoc. split; [done|].
      cbn. rewrite H1, H2, H3, H4, H5, H6. repeat split; lia.
Qed.

Lemma convertFile_found_eq tier filename t w :
  fs_exists (fs w) (path_join inputDir filename) = true →
  convertFile sharp tier filename t w =
  for_of (sizes tier)
    (convertSize sharp filename (path_join inputDir filename)) t
    (mkWorld (fs w)
       (console w
        ++ [LogSource filename
              (match fs_stat_size (fs w) (path_join inputDir filename) with
               | Some sz => SizeMB sz
               | None => SizeNA
               end)])
       (sharp_calls w)).
Proof.
  intros Hex. unfold convertFile. cbv zeta. unfold bind at 1, existsSync.
  rewrite Hex. cbn [negb]. unfold bind at 1.
  by rewrite getFileSize_eq, log_then.
Qed.

(** The lines of a loop over files: one skip or source line per file. *)
Lemma convertFiles_console tier fls : ∀ w t,
  ∃ w1 t1 clog,
    for_of fls (convertFile sharp tier) t w = (w1, Normal t1)
    ∧ console w1 = console w ++ clog
    ∧ totalConverted t1
      = (totalConverted t + count_lines is_converted_line clog)%nat
    ∧ totalFailed t1 = (totalFailed t + count_lines is_failed_line clog)%nat
    ∧ count_lines is_error_line clog = count_lines is_failed_line clog
    ∧ count_lines is_unsized_success clog = O
    ∧ (count_lines is_skip_line clog + count_lines is_source_line clog)%nat
      = length fls.
Proof.
  induction fls as [|f fls IH]; intros w t.
  - exists w, t, []. cbn. rewrite app_nil_r, !Nat.add_0_r. done.
  - cbn [for_of]. unfold bind at 1.
    destruct (fs_exists (fs w) (path_join inputDir f)) eqn:Hex.
    + rewrite (convertFile_found_eq tier f t w Hex).
      edestruct (convertSizes_console f (path_join inputDir f) (sizes tier))
        as (w1 & t1 & c1 & -> & Hc1 & A1 & A2 & A3 & A4 & A5 & A6).
      edestruct (IH w1 t1)
        as (w2 & t2 & c2 & -> & Hc2 & B1 & B2 & B3 & B4 & B5).
      eexists w2, t2, (_ :: c1 ++ c2). split; [reflexivity|].
      cbn [console] in Hc1. rewrite Hc2, Hc1, <- !app_assoc.
      split; [done|].
      cbn [count_lines is_converted_line is_failed_line is_error_line
             is_unsized_success is_skip_line is_source_line length].
      rewrite !count_lines_app, B1, B2, A1, A2, A3, B3, A4, B4, A5, A6.
      repeat split; lia.
    + rewrite (convertFile_missing sharp tier f t w Hex).
      edestruct IH as (w2 & t2 & c2 & -> & Hc2 & B1 & B2 & B3 & B4 & B5).
      eexists w2, t2, (_ :: c2). split; [reflexivity|].
      cbn [console] in Hc2. rewrite Hc2, <- !app_assoc.
      split; [done|].
      cbn [count_lines is_converted_line is_failed_line is_error_line
             is_unsized_success is_skip_line is_source_line length].
      repeat split; lia.
Qed.

(** The lines of the whole process. *)
Lemma main_console w :
  ∃ t clog,
    console (main sharp w).1 = console w ++ clog
    ∧ LogSuccessCount (totalConverted t) ∈ clog
    ∧ LogFailedCount (totalFailed t) ∈ clog
    ∧ totalConverted t = count_lines is_converted_line clog
    ∧ totalFailed t = count_lines is_failed_line clog
    ∧ count_lines is_error_line clog = count_lines is_failed_line clog
    ∧ count_lines is_unsized_success clog = O
    ∧ (count_lines is_skip_line clog + count_lines is_source_line clog)%nat
      = 14%nat.
Proof.
  destruct (convertFiles_console (large config) (files (large config))
              (mkWorld (fs w)
                 ((console w ++ [LogStarting])
                  ++ [LogTierHeader "large images (17-25 MB each)"])
                 (sharp_calls w)) (mkTally 0 0))
    as (w1 & t1 & c1 & E1 & Hc1 & A1 & A2 & A3 & A4 & A5).
  destruct (convertFiles_console (product config) (files (product config))
              (mkWorld (fs w1)
                 (console w1 ++ [LogTierHeader "product images (2.8-3.6 MB)"])
                 (sharp_calls w1)) t1)
    as (w2 & t2 & c2 & E2 & Hc2 & B1 & B2 & B3 & B4 & B5).
  destruct (convertFiles_console (review config) (files (review config))
              (mkWorld (fs w2)
                 (console w2 ++ [LogTierHeader "review images (1.1-2 MB)"])
                 (sharp_calls w2)) t2)
    as (w3 & t3 & c3 & E3 & Hc3 & C1 & C2 & C3 & C4 & C5).
  assert (Hall : convertAll sharp w = (w3, Normal t3)).
  { unfold convertAll. rewrite !log_then. cbn [fs console sharp_calls].
    unfold convertTier.
    unfold bind at 1. rewrite E1, log_then.
    unfold bind at 1. rewrite E2, log_then. exact E3. }
  cbn [console totalConverted totalFailed] in *.
  destruct (sizeComparison_frame
              (mkWorld (fs w3) (console w3 ++ summary_lines t3)
                 (sharp_calls w3))) as (post & r & Hs).
  assert (Hpost : post = []
                  ∨ ∃ total, post = [LogTotalWebp total;
                                     LogOriginalEstimate 153;
                                     LogSavings (savings total)]).
  { rewrite sizeComparison_eq in Hs. cbn [fs console sharp_calls] in Hs.
    destruct (fs_readdir (fs w3) inputDir) as [names|].
    - cbv zeta in Hs.
      destruct (stat_loop_eq
                  (filter (fun f => js_endsWith f ".webp" = true) names) 0
                  (mkWorld (fs w3) (console w3 ++ summary_lines t3)
                     (sharp_calls w3))) as [[_ Heq]|[_ [e Heq]]];
        rewrite Heq in Hs; cbn [fs console sharp_calls] in Hs;
        injection Hs as Hs _.
      + right. eexists. by apply app_inv_head in Hs.
      + left. rewrite <- (app_nil_r (console w3 ++ summary_lines t3)) in Hs
          at 1. by apply app_inv_head in Hs.
    - injection Hs as Hs _. left.
      rewrite <- (app_nil_r (console w3 ++ summary_lines t3)) in Hs at 1.
      by apply app_inv_head in Hs. }
  set (fatal := match r with
                | Normal _ => []
                | Throw e => [ErrFatal e]
                end).
  exists t3,
    ([LogStarting; LogTierHeader "large images (17-25 MB each)"] ++ c1
     ++ [LogTierHeader "product images (2.8-3.6 MB)"] ++ c2
     ++ [LogTierHeader "review images (1.1-2 MB)"] ++ c3
     ++ summary_lines t3 ++ post ++ fatal).
  split.
  { unfold main. rewrite (processImages_eq sharp w _ _ Hall), Hs.
    subst fatal. destruct r as [[]|e]; cbn [fst console];
      rewrite Hc3, Hc2, Hc1, <- !app_assoc; cbn [app];
      by rewrite ?app_nil_r. }
  split.
  { rewrite !elem_of_app. do 6 right. left. unfold summary_lines.
    rewrite !elem_of_cons. auto. }
  split.
  { rewrite !elem_of_app. do 6 right. left. unfold summary_lines.
    rewrite !elem_of_cons. auto 6. }
  assert (Hkinds : ∀ p,
            p = is_converted_line ∨ p = is_failed_line ∨ p = is_error_line
            ∨ p = is_unsized_success ∨ p = is_skip_line
            ∨ p = is_source_line →
            count_lines p (summary_lines t3) = O
            ∧ count_lines p post = O ∧ count_lines p fatal = O).
  { intros p Hp. split; [|split].
    - by destruct Hp as [->|[->|[->|[->|[->| ->]]]]].
    - destruct Hpost as [->|[total ->]];
        by destruct Hp as [->|[->|[->|[->|[->| ->]]]]].
    - subst fatal. destruct r; [done|].
      by destruct Hp as [->|[->|[->|[->|[->| ->]]]]]. }
  destruct (Hkinds is_converted_line ltac:(auto 7)) as (K1 & K2 & K3).
  destruct (Hkinds is_failed_line ltac:(auto 7)) as (K4 & K5 & K6).
  destruct (Hkinds is_error_line ltac:(auto 7)) as (K7 & K8 & K9).
  destruct (Hkinds is_unsized_success ltac:(auto 7)) as (K10 & K11 & K12).
  destruct (Hkinds is_skip_line ltac:(auto 7)) as (K13 & K14 & K15).
  destruct (Hkinds is_source_line ltac:(auto 7)) as (K16 & K17 & K18).
  rewrite !count_lines_app.
  rewrite K1, K2, K3, K4, K5, K6, K7, K8, K9, K10, K11, K12, K13, K14, K15,
    K16, K17, K18.
  cbn [count_lines is_converted_line is_failed_line is_error_line
         is_unsized_success is_skip_line is_source_line app].
  change (length (files (large config))) with 7%nat in A5.
  change (length (files (product config))) with 3%nat in B5.
  change (length (files (review config))) with 4%nat in C5.
  repeat split; lia.
Qed.

End Console.

Lemma count_lines_zero p l x :
  count_lines p l = O → x ∈ l → p x = false.
Proof.
  induction l as [|y l IH]; intros Hc Hx; [by apply elem_of_nil in Hx|].
  cbn in Hc. apply elem_of_cons in Hx as [->|Hx].
  - destruct (p y); [lia|done].
  - apply IH; [|done]. destruct (p y); lia.
Qed.

(** The success and failure lines of a file's calls against the tally. *)
Lemma render_calls_count f : ∀ szs calls t,
  length szs = length calls →
  totalConverted (count_calls calls t)
  = (totalConverted t
     + count_lines is_converted_line (render_calls f szs calls))%nat
  ∧ totalFailed (count_calls calls t)
    = (totalFailed t
       + count_lines is_failed_line (render_calls f szs calls))%nat
  ∧ count_lines is_error_line (render_calls f szs calls)
    = count_lines is_failed_line (render_calls f szs calls).
Proof.
  induction szs as [|sz szs IH]; intros [|c calls] t Hlen; try done.
  injection Hlen as Hlen.
  change (count_calls (c :: calls) t)
    with (count_calls calls (count_call t c)).
  destruct (IH calls (count_call t c) Hlen) as (H1 & H2 & H3).
  rewrite H1, H2. cbn [render_calls]. rewrite !count_lines_app, H3.
  unfold count_call, render_call.
  destruct (call_result c); cbn; lia.
Qed.

Lemma render_events_count tier evs : ∀ t,
  Forall (event_ok tier) evs →
  totalConverted (count_calls (events_calls evs) t)
  = (totalConverted t
     + count_lines is_converted_line (render_events tier evs))%nat
  ∧ totalFailed (count_calls (events_calls evs) t)
    = (totalFailed t
       + count_lines is_failed_line (render_events tier evs))%nat
  ∧ count_lines is_error_line (render_events tier evs)
    = count_lines is_failed_line (render_events tier evs).
Proof.
  unfold events_calls, render_events.
  induction evs as [|ev evs IH]; intros t HF.
  - unfold count_calls. cbn. lia.
  - apply Forall_cons in HF as [Hok HF].
    cbn [flat_map]. rewrite count_calls_app, !count_lines_app.
    destruct (IH (count_calls (event_calls ev) t) HF) as (H1 & H2 & H3).
    rewrite H1, H2, H3.
    destruct ev as [f|f originalSize calls]; cbn [event_calls render_event].
    + cbn. lia.
    + unfold event_ok in Hok. cbn [event_found event_file event_calls] in Hok.
      apply Forall2_length in Hok. rewrite length_map in Hok.
      destruct (render_calls_count f (sizes tier) calls t Hok)
        as (K1 & K2 & K3).
      rewrite K1, K2. cbn [count_lines is_converted_line is_failed_line
                             is_error_line].
      rewrite K3. lia.
Qed.

(** X10: the log of a run, line for line: the start line; for each tier
    its header and then, for each of its files in the order of the table,
    either the skip notice of that file or its source line followed, for
    each size-spec in order, by the success line of that output or by the
    error line and the failure line of that output; then the summary
    lines, whose counts are the numbers of success and of failure lines
    printed before them; then the three lines of the size summary, or
    the fatal error. *)
Theorem log_matches_summary (sharp : Codec) (w : World) :
  ∃ e1 e2 e3 t tail,
    console (main sharp w).1
    = console w ++ traversal_console e1 e2 e3 ++ summary_lines t ++ tail
    ∧ sharp_calls (main sharp w).1 = sharp_calls w ++ all_calls e1 e2 e3
    ∧ tier_events (large config) e1
    ∧ tier_events (product config) e2
    ∧ tier_events (review config) e3
    ∧ totalConverted t
      = count_lines is_converted_line (traversal_console e1 e2 e3)
    ∧ totalFailed t
      = count_lines is_failed_line (traversal_console e1 e2 e3)
    ∧ count_lines is_error_line (traversal_console e1 e2 e3)
      = count_lines is_failed_line (traversal_console e1 e2 e3)
    ∧ ((∃ total, tail = [LogTotalWebp total; LogOriginalEstimate 153;
                         LogSavings (savings total)]
                 ∧ (main sharp w).2 = 0)
       ∨ (∃ error, tail = [ErrFatal error] ∧ (main sharp w).2 = 1)).
Proof.
  destruct (convertAll_events sharp w)
    as (e1 & e2 & e3 & Hall & T1 & T2 & T3 & _).
  set (t := count_calls (all_calls e1 e2 e3) (mkTally 0 0)) in *.
  pose proof (processImages_eq sharp w _ _ Hall) as Hp.
  cbn [fs console sharp_calls] in Hp.
  set (w0 := mkWorld _ _ _) in Hp.
  assert (Htail : ∃ tail code,
            main sharp w
            = (mkWorld (fs w0) (console w0 ++ tail) (sharp_calls w0), code)
            ∧ ((∃ total, tail = [LogTotalWebp total; LogOriginalEstimate 153;
                                 LogSavings (savings total)]
                         ∧ code = 0)
               ∨ (∃ error, tail = [ErrFatal error] ∧ code = 1))).
  { unfold main. rewrite Hp, sizeComparison_eq.
    destruct (fs_readdir (fs w0) inputDir) as [names|].
    - cbv zeta.
      destruct (stat_loop_eq
                  (filter (fun f => js_endsWith f ".webp" = true) names) 0
                  w0) as [[_ ->]|[_ [e ->]]].
      + eexists _, _. split; [reflexivity|]. left. eauto.
      + exists [ErrFatal e], 1. split; [done|]. right. eauto.
    - eexists [ErrFatal _], 1. split; [done|]. right. eauto. }
  destruct Htail as (tail & code & Hmain & Hshape).
  exists e1, e2, e3, t, tail. rewrite Hmain.
  subst w0. cbn [fst snd fs console sharp_calls]. rewrite <- !app_assoc.
  split; [done|]. split; [done|].
  split; [done|]. split; [done|]. split; [done|].
  destruct (render_events_count (large config) e1 (mkTally 0 0))
    as (A1 & A2 & A3); [apply T1|].
  destruct (render_events_count (product config) e2
              (count_calls (events_calls e1) (mkTally 0 0)))
    as (B1 & B2 & B3); [apply T2|].
  destruct (render_events_count (review config) e3
              (count_calls (events_calls e2)
                 (count_calls (events_calls e1) (mkTally 0 0))))
    as (C1 & C2 & C3); [apply T3|].
  split; [|split; [|split; [|exact Hshape]]].
  - subst t. unfold all_calls, traversal_console.
    rewrite !count_calls_app, !count_lines_app, C1, B1, A1. cbn. lia.
  - subst t. unfold all_calls, traversal_console.
    rewrite !count_calls_app, !count_lines_app, C2, B2, A2. cbn. lia.
  - unfold traversal_console.
    rewrite !count_lines_app, A3, B3, C3. cbn. lia.
Qed.

(** X11: a success line always shows the size of the file that was just
    written, never the placeholder: the size is read back right after the
    write, at the path that was written. *)
Theorem success_lines_show_size (sharp : Codec) (w : World) :
  (∀ filename inputPath sz t w0 out,
     sharp (fs w0) inputPath (mkResize (width sz) None true FitInside)
       (quality sz) (path_join inputDir (outputNameOf filename sz))
     = Encoded out →
     console (convertSize sharp filename inputPath sz t w0).1
     = console w0
       ++ [LogConverted (outputNameOf filename sz) (SizeMB (file_size out))])
  ∧ ∃ clog,
      console (main sharp w).1 = console w ++ clog
      ∧ ∀ name, LogConverted name SizeNA ∉ clog.
Proof.
  split.
  - intros filename inputPath sz t w0 out Henc.
    rewrite convertSize_eq. cbv zeta. by rewrite Henc.
  - destruct (main_console sharp w)
      as (t & clog & Hc & _ & _ & _ & _ & _ & Hun & _).
    exists clog. split; [done|]. intros name Hin.
    by pose proof (count_lines_zero _ _ _ Hun Hin).
Qed.

(** X12: the savings printed are 100 when there is no [.webp] byte, at
    most 100 for any total, smaller the larger the total, and negative
    exactly when the total exceeds the 153 MB estimate. *)
Theorem savings_range (t1 t2 : Z) :
  (savings 0 == 100)%Q
  ∧ (0 ≤ t1 → (savings t1 <= 100)%Q)
  ∧ (t1 ≤ t2 → (savings t2 <= savings t1)%Q)
  ∧ ((savings t1 < 0)%Q ↔ 153 * 1024 * 1024 < t1).
Proof.
  unfold savings.
  change (inject_Z (153 * 1024 * 1024)) with (160432128 # 1)%Q.
  split; [reflexivity|].
  cbv [Qle Qlt Qminus Qplus Qmult Qdiv Qinv Qopp inject_Z Qnum Qden
         Pos.mul].
  split; [|split].
  - intros H. lia.
  - intros H. lia.
  - lia.
Qed.

(** ** A run in which everything succeeds *)





